(** * localstore: a directory-backed key-value store with a sorted filename index

    Shallow embedding of [localstore.go] and [options.go], and the
    properties of the index-maintenance protocol.

    Conventions of the embedding
    - a Go [string] is a Rocq [string] (a sequence of 8-bit characters);
    - a Go [int] is a [Z]; slice positions that are known to be in range
      are [nat];
    - a Go [error] is [option error], [None] being [nil];
    - every method of the store holds the store's lock for its whole
      duration, so a method is an atomic step on the pair (store, world);
    - a run-time panic (slice index out of range) is an explicit outcome. *)

From Stdlib Require Import ZArith String Ascii Strings.Byte List Sorting.Sorted Sorting.Permutation Lia.
From stdpp Require Import base list sorting gmap strings.

Local Open Scope string_scope.
Local Open Scope Z_scope.

(** ** The parts of the Go standard library the store calls *)

(** [strings.Compare]: lexicographic comparison of the byte sequences,
    returning -1, 0 or +1. *)
Module GoStrings.

Fixpoint Compare (a b : string) : Z :=
  match a, b with
  | EmptyString, EmptyString => 0
  | EmptyString, String _ _ => -1
  | String _ _, EmptyString => 1
  | String x a', String y b' =>
      if (nat_of_ascii x <? nat_of_ascii y)%nat then -1
      else if (nat_of_ascii y <? nat_of_ascii x)%nat then 1
      else Compare a' b'
  end.

End GoStrings.

(** [sort.Find] and [sort.Slice]. *)
Module GoSort.

(** The loop of [sort.Find]:
<<
    i, j := 0, n
    for i < j {
        h := int(uint(i+j) >> 1)
        if cmp(h) > 0 { i = h + 1 } else { j = h }
    }
>>
    Every iteration shrinks [j - i], so [j - i] units of fuel are enough
    (lemma [Find_loop_fuel] below). *)
Fixpoint Find_loop (fuel : nat) (cmp : nat -> Z) (i j : nat) : nat :=
  match fuel with
  | O => i
  | S fuel' =>
      if (i <? j)%nat then
        let h := ((i + j) / 2)%nat in
        if 0 <? cmp h then Find_loop fuel' cmp (h + 1)%nat j
        else Find_loop fuel' cmp i h
      else i
  end.

(** [return i, i < n && cmp(i) == 0] *)
Definition Find (n : nat) (cmp : nat -> Z) : nat * bool :=
  let i := Find_loop n cmp 0%nat n in
  (i, (i <? n)%nat && (cmp i =? 0)).

(** [sort.Slice(x, less)] sorts [x] in place with the given strict
    "less" test.  Go runs a pattern-defeating quicksort that falls back
    to insertion sort on short ranges; the model is the insertion sort.
    For a comparator that is a total order every correct sort produces
    the same sequence (lemma [sorted_perm_unique] below), so the choice
    of algorithm is not observable under the store's contract. *)
Section Slice.

Context {A : Type} (less : A -> A -> bool).

Fixpoint insert_sorted (x : A) (l : list A) : list A :=
  match l with
  | [] => [x]
  | y :: l' => if less x y then x :: y :: l' else y :: insert_sorted x l'
  end.

Fixpoint Slice (l : list A) : list A :=
  match l with
  | [] => []
  | x :: l' => insert_sorted x (Slice l')
  end.

End Slice.

End GoSort.

(** [path/filepath] on a Unix system (separator [/]). *)
Module Filepath.

Definition Separator : ascii := "/"%char.

Definition IsPathSeparator (c : ascii) : bool := Ascii.eqb c Separator.

(** [Ext]: the suffix beginning at the final dot in the final element of
    the path, empty if there is no dot.
<<
    for i := len(path) - 1; i >= 0 && !os.IsPathSeparator(path[i]); i-- {
        if path[i] == '.' { return path[i:] }
    }
    return ""
>>
    [Ext_scan] walks the reversed path; [acc] is [path[i+1:]]. *)
Fixpoint Ext_scan (rev_path : list ascii) (acc : list ascii) : string :=
  match rev_path with
  | [] => ""
  | c :: rest =>
      if IsPathSeparator c then ""
      else if Ascii.eqb c "."%char then string_of_list_ascii (c :: acc)
      else Ext_scan rest (c :: acc)
  end.

Definition Ext (path : string) : string :=
  Ext_scan (rev (list_ascii_of_string path)) [].

(** The extensions that [Ext] can return for a file name: a dot followed
    by characters that are neither a dot nor a separator. *)
Definition is_simple_ext (e : string) : bool :=
  match e with
  | EmptyString => false
  | String c rest =>
      Ascii.eqb c "."%char &&
      forallb (fun x => negb (Ascii.eqb x "."%char) && negb (IsPathSeparator x))
              (list_ascii_of_string rest)
  end.

(** Splitting a path at its separators. *)
Fixpoint split_sep (cur : list ascii) (p : list ascii) : list string :=
  match p with
  | [] => [string_of_list_ascii (rev cur)]
  | c :: p' =>
      if IsPathSeparator c then string_of_list_ascii (rev cur) :: split_sep [] p'
      else split_sep (c :: cur) p'
  end.

(** One step of [Clean] on the stack of kept elements (most recent
    first): empty and [.] elements vanish, [..] cancels the element
    before it, is dropped at the root and is kept otherwise. *)
Definition clean_step (rooted : bool) (stack : list string) (e : string) : list string :=
  if String.eqb e "" || String.eqb e "." then stack
  else if String.eqb e ".." then
    match stack with
    | top :: below => if String.eqb top ".." then e :: stack else below
    | [] => if rooted then [] else [e]
    end
  else e :: stack.

Fixpoint join_sep (l : list string) : string :=
  match l with
  | [] => ""
  | [e] => e
  | e :: l' => e ++ "/" ++ join_sep l'
  end.

(** [Clean]: the shortest equivalent path by lexical processing. *)
Definition Clean (path : string) : string :=
  let chars := list_ascii_of_string path in
  let rooted := match chars with c :: _ => IsPathSeparator c | [] => false end in
  let stack := fold_left (clean_step rooted) (split_sep [] chars) [] in
  let out := (if rooted then "/" else "") ++ join_sep (rev stack) in
  if String.eqb out "" then "." else out.

(** [Join(dir, name)]: leading empty elements are ignored, the rest is
    joined with the separator and cleaned. *)
Definition Join (dir name : string) : string :=
  if negb (String.eqb dir "") then Clean (dir ++ "/" ++ name)
  else if negb (String.eqb name "") then Clean name
  else "".

End Filepath.

(** [net/url]. *)
Module Url.

Definition in_range (lo hi c : ascii) : bool :=
  (nat_of_ascii lo <=? nat_of_ascii c)%nat && (nat_of_ascii c <=? nat_of_ascii hi)%nat.

Definition one_of (s : string) (c : ascii) : bool :=
  existsb (Ascii.eqb c) (list_ascii_of_string s).

(** [shouldEscape(c, encodePathSegment)] *)
Definition shouldEscape (c : ascii) : bool :=
  if in_range "a" "z" c || in_range "A" "Z" c || in_range "0" "9" c then false
  else if one_of "-_.~" c then false
  else if one_of "$&+,/:;=?@" c then one_of "/;,?" c
  else true.

Definition upperhex (n : nat) : ascii :=
  nth n (list_ascii_of_string "0123456789ABCDEF") "0"%char.

Fixpoint escape (s : string) : string :=
  match s with
  | EmptyString => EmptyString
  | String c s' =>
      if shouldEscape c then
        String "%" (String (upperhex (nat_of_ascii c / 16))
                      (String (upperhex (nat_of_ascii c mod 16)) (escape s')))
      else String c (escape s')
  end.

Definition PathEscape (s : string) : string := escape s.

End Url.

(** ** Errors, file contents and the world outside the store *)

(** Modelled from the spec: [ErrNotExist] is declared in a file of the
    package that is not part of the sources at hand; the spec's error
    taxonomy is not-found, I/O error and codec error. *)
Inductive error : Type :=
  | ErrNotExist
  | ErrIO (msg : string)
  | ErrCodec (msg : string).

Inductive result (A : Type) : Type :=
  | Ok (a : A)
  | Err (e : error).
Arguments Ok {A} a.
Arguments Err {A} e.

(** The outcome of a call that may panic instead of returning. *)
Inductive outcome (A : Type) : Type :=
  | Return (a : A)
  | Panic (msg : string).
Arguments Return {A} a.
Arguments Panic {A} msg.

Definition bytes : Type := list byte.

Inductive node : Type :=
  | Regular (data : bytes)
  | Directory.

(** The world: the file tree, keyed by cleaned path, and the schedule of
    injected faults.  Every fallible primitive of the file layer first
    takes the next entry of the schedule: [Some e] makes the primitive
    fail with [e] (permission denied, disk full, ...), [None] or an
    exhausted schedule lets it behave as the file tree dictates. *)
Record World : Type := mkWorld {
  fs : gmap string node;
  faults : list (option error)
}.

Definition quiet (w : World) : Prop := Forall (fun f => f = None) (faults w).

(** Calls into the world are threaded through a state monad. *)
Definition IO (A : Type) : Type := World -> A * World.

Definition ret {A : Type} (a : A) : IO A := fun w => (a, w).

Definition bind {A B : Type} (c : IO A) (k : A -> IO B) : IO B :=
  fun w => let (a, w') := c w in k a w'.

Notation "x <-- c ;; k" := (bind c (fun x => k))
  (at level 100, c at next level, right associativity).

(** ** The file layer ([github.com/thamaji/files])

    The package is an external collaborator; its primitives are modelled
    as the standard file-system operations they wrap.  The [Must]
    variants have no error result: they discard the error of the
    operation and give the zero value. *)
Module Files.

Definition fault : IO (option error) :=
  fun w =>
    match faults w with
    | [] => (None, w)
    | f :: rest => (f, mkWorld (fs w) rest)
    end.

(** An open file: the path it was opened at and what was found there. *)
Record File : Type := mkFile { f_path : string; f_node : node }.

Record FileInfo : Type := mkFileInfo { IsDir : bool }.

(** What a decoder sees of an [io.Reader]: the bytes it delivers, and
    the error that ends the stream ([None] for a clean end of file). *)
Record Reader : Type := mkReader { r_data : bytes; r_err : option error }.

(** [filepath.Split]: directory part (with its trailing separator) and
    last element. *)
Fixpoint split_scan (rev_path : list ascii) (acc : list ascii) : string * string :=
  match rev_path with
  | [] => ("", string_of_list_ascii acc)
  | c :: rest =>
      if Filepath.IsPathSeparator c
      then (string_of_list_ascii (rev rev_path), string_of_list_ascii acc)
      else split_scan rest (c :: acc)
  end.

Definition Split (path : string) : string * string :=
  split_scan (rev (list_ascii_of_string path)) [].

(** The names of the entries of directory [dir]. *)
Definition entries (t : gmap string node) (dir : string) : list string :=
  omap (fun p => let (d, base) := Split p in
                 if String.eqb (Filepath.Clean d) (Filepath.Clean dir)
                    && negb (String.eqb p (Filepath.Clean dir))
                 then Some base else None)
       (map fst (map_to_list t)).

Definition ReadDirnames (dir : string) : IO (result (list string)) :=
  e <-- fault ;;
  fun w =>
    match e with
    | Some e => (Err e, w)
    | None =>
        match fs w !! Filepath.Clean dir, entries (fs w) dir with
        | Some (Regular _), _ => (Err (ErrIO "not a directory"), w)
        | None, [] => (Err (ErrIO "no such file or directory"), w)
        | _, names => (Ok names, w)
        end
    end.

Definition MustReadDirnames (dir : string) : IO (list string) :=
  r <-- ReadDirnames dir ;;
  ret (match r with Ok names => names | Err _ => [] end).

Definition lookup_path (path : string) : IO (result File) :=
  e <-- fault ;;
  fun w =>
    match e with
    | Some e => (Err e, w)
    | None =>
        match fs w !! path with
        | Some n => (Ok (mkFile path n), w)
        | None => (Err (ErrIO "no such file or directory"), w)
        end
    end.

(** [files.Open] and [files.OpenFileReader]: open for reading. *)
Definition Open (path : string) : IO (result File) := lookup_path path.
Definition OpenFileReader (path : string) : IO (result File) := lookup_path path.

(** [f.Stat()] *)
Definition Stat (f : File) : IO (result FileInfo) :=
  e <-- fault ;;
  ret (match e with
       | Some e => Err e
       | None => Ok (mkFileInfo (match f_node f with Directory => true | Regular _ => false end))
       end).

(** Reading an open file to its end, as a decoder does. *)
Definition reader (f : File) : IO Reader :=
  e <-- fault ;;
  ret (match e with
       | Some e => mkReader [] (Some e)
       | None =>
           match f_node f with
           | Regular data => mkReader data None
           | Directory => mkReader [] (Some (ErrIO "is a directory"))
           end
       end).

(** [f.Close()] *)
Definition Close (f : File) : IO (option error) := fault.

(** [files.OpenFileWriter]: create the file or truncate it. *)
Definition OpenFileWriter (path : string) : IO (result File) :=
  e <-- fault ;;
  fun w =>
    match e with
    | Some e => (Err e, w)
    | None =>
        match fs w !! path with
        | Some Directory => (Err (ErrIO "is a directory"), w)
        | _ => (Ok (mkFile path (Regular [])),
                mkWorld (<[path := Regular []]> (fs w)) (faults w))
        end
    end.

(** Writing to a file opened for writing: the bytes are appended. *)
Definition Write (f : File) (data : bytes) : IO (option error) :=
  e <-- fault ;;
  fun w =>
    match e with
    | Some e => (Some e, w)
    | None =>
        let old := match fs w !! f_path f with Some (Regular d) => d | _ => [] end in
        (None, mkWorld (<[f_path f := Regular (old ++ data)%list]> (fs w)) (faults w))
    end.

(** [files.Remove] *)
Definition Remove (path : string) : IO (option error) :=
  e <-- fault ;;
  fun w =>
    match e with
    | Some e => (Some e, w)
    | None =>
        match fs w !! path with
        | Some _ => (None, mkWorld (delete path (fs w)) (faults w))
        | None => (Some (ErrIO "no such file or directory"), w)
        end
    end.

Definition IsEmptyDir (path : string) : IO (result bool) :=
  e <-- fault ;;
  fun w =>
    match e with
    | Some e => (Err e, w)
    | None =>
        match fs w !! path with
        | Some Directory =>
            (Ok (match entries (fs w) path with [] => true | _ => false end), w)
        | Some (Regular _) => (Err (ErrIO "not a directory"), w)
        | None => (Err (ErrIO "no such file or directory"), w)
        end
    end.

Definition MustIsEmptyDir (path : string) : IO bool :=
  r <-- IsEmptyDir path ;;
  ret (match r with Ok b => b | Err _ => false end).

End Files.

(** ** The comparator contract and sortedness

    The index assumes that the comparator is consistent and a valid
    total order: equal exactly on equal names, antisymmetric in its sign
    and transitive. *)
Record TotalOrder (cmp : string -> string -> Z) : Prop := mkTotalOrder {
  cmp_refl : forall a, cmp a a = 0;
  cmp_eq : forall a b, cmp a b = 0 -> a = b;
  cmp_flip : forall a b, cmp a b < 0 <-> 0 < cmp b a;
  cmp_trans : forall a b c, cmp a b < 0 -> cmp b c < 0 -> cmp a c < 0
}.

(** A sequence is sorted per [cmp] when no element compares above a
    later one. *)
Definition sorted_by (cmp : string -> string -> Z) (l : list string) : Prop :=
  StronglySorted (fun a b => cmp a b <= 0) l.

(** ** The store ([options.go], [localstore.go]) *)

(** [make([]T, 0, cap)] panics when [cap] is more than the run-time
    system accepts for a slice of the element type; [slice_max_cap] is
    that bound for [T]. *)
Class SliceLimit (T : Type) : Type := slice_max_cap : Z.

Module LocalStore.
Section Store.

(** The value type [T] of [LocalStore[T]]; [inhabitant] is [*new(T)]. *)
Context {T : Type} `{!Inhabited T} `{!SliceLimit T}.

(** The interfaces of [options.go] have one method each and are
    modelled by that method.  An [Encoder] is the serialisation of a
    value, with the codec's own error if it has one; a [Decoder] maps
    what the reader delivers to a value and an error. *)
Definition Comparator : Type := string -> string -> Z.
Definition Encoder : Type := T -> bytes * option error.
Definition Decoder : Type := Files.Reader -> T * option error.

(** [Options[T]]: an unset interface field is [None], the unset
    extension is the empty string. *)
Record Options : Type := mkOptions {
  Ext : string;
  opt_Comparator : option Comparator;
  opt_Encoder : option Encoder;
  opt_Decoder : option Decoder
}.

(** [LocalStore[T]].  The [mutex] field has no counterpart: [Load],
    [Put] and [Delete] hold the write lock and [List] and [Get] the read
    lock from entry to exit, so calls are serialised steps. *)
Record t : Type := mkStore {
  dir : string;
  ext : string;
  comparator : Comparator;
  encoder : Encoder;
  decoder : Decoder;
  index : list string
}.

Definition set_index (s : t) (idx : list string) : t :=
  mkStore (dir s) (ext s) (comparator s) (encoder s) (decoder s) idx.

(** The default codec is [encoding/gob]; it is a parameter here. *)
Variable gob_Encode : Encoder.
Variable gob_Decode : Decoder.

Definition New (d : string) (opt : option Options) : t :=
  let s := mkStore d ".dat" GoStrings.Compare gob_Encode gob_Decode [] in
  match opt with
  | None => s
  | Some opt =>
      mkStore (dir s)
        (if negb (String.eqb (Ext opt) "") then Ext opt else ext s)
        (match opt_Comparator opt with Some c => c | None => comparator s end)
        (match opt_Encoder opt with Some e => e | None => encoder s end)
        (match opt_Decoder opt with Some dc => dc | None => decoder s end)
        (index s)
  end.

(** [List[T]], the page returned by the method [List]. *)
Record ListT : Type := mkList {
  Values : list T;
  Offset : Z;
  Limit : Z;
  Total : Z
}.

(** [Load]: the loop keeps the names whose [filepath.Ext] is the
    configured extension; [sort.Slice] orders them with
    [Compare(index[i], index[j]) < 0]. *)
Definition Load (s : t) : IO (option error * t) :=
  names <-- Files.MustReadDirnames (dir s) ;;
  let idx := List.filter (fun name => String.eqb (Filepath.Ext name) (ext s)) names in
  let idx := GoSort.Slice (fun a b => comparator s a b <? 0) idx in
  ret (None, set_index s idx).

(** [s.index[i]] for a Go [int]: [None] is the index-out-of-range panic. *)
Definition index_at (s : t) (i : Z) : option string :=
  if i <? 0 then None else index s !! Z.to_nat i.

(** The loop [for i := offset; i < cap; i++] of [List], with [n] the
    number of iterations left, [Z.to_nat (cap - i)]. *)
Fixpoint List_loop (s : t) (n : nat) (i : Z) (values : list T)
  : IO (outcome (result (list T))) :=
  match n with
  | O => ret (Return (Ok values))
  | S n' =>
      match index_at s i with
      | None => ret (Panic "index out of range")
      | Some name =>
          r <-- Files.Open (Filepath.Join (dir s) name) ;;
          match r with
          | Err err => ret (Return (Err err))
          | Ok f =>
              r <-- Files.Stat f ;;
              match r with
              | Err err => _ <-- Files.Close f ;; ret (Return (Err err))
              | Ok fi =>
                  if Files.IsDir fi then
                    _ <-- Files.Close f ;; List_loop s n' (i + 1) values
                  else
                    rd <-- Files.reader f ;;
                    let (value, err) := decoder s rd in
                    _ <-- Files.Close f ;;
                    match err with
                    | Some err => ret (Return (Err err))
                    | None => List_loop s n' (i + 1) (values ++ [value])%list
                    end
              end
          end
      end
  end.

(** [List]: [cap] is [limit], or the index length for a negative
    [limit]; [make([]T, 0, cap)] allocates the result; the loop runs from
    [offset] to [cap]; an error returns the zero page [List[T]{}]. *)
Definition List (s : t) (offset limit : Z) : IO (outcome (ListT * option error)) :=
  let cap := if limit <? 0 then Z.of_nat (length (index s)) else limit in
  if slice_max_cap <? cap then ret (Panic "makeslice: cap out of range")
  else
    r <-- List_loop s (Z.to_nat (cap - offset)) offset [] ;;
    ret (match r with
         | Panic msg => Panic msg
         | Return (Err err) => Return (mkList [] 0 0 0, Some err)
         | Return (Ok values) =>
             Return (mkList values offset limit (Z.of_nat (length (index s))), None)
         end).

(** The closure passed to [sort.Find] by [Get], [Put] and [Delete];
    [sort.Find] calls it below [len(s.index)] only. *)
Definition find_cmp (s : t) (name : string) : nat -> Z :=
  fun i => comparator s name (nth i (index s) "").

(** [Get]: the name is looked up in the index before the file is
    opened; the value of the decoder is returned with its error. *)
Definition Get (s : t) (key : string) : IO (T * option error) :=
  let name := Url.PathEscape key ++ ext s in
  let path := Filepath.Join (dir s) name in
  let (_, ok) := GoSort.Find (length (index s)) (find_cmp s name) in
  if negb ok then ret (inhabitant, Some ErrNotExist)
  else
    r <-- Files.OpenFileReader path ;;
    match r with
    | Err err => ret (inhabitant, Some err)
    | Ok f =>
        rd <-- Files.reader f ;;
        let (value, err) := decoder s rd in
        _ <-- Files.Close f ;;
        ret (value, err)
    end.

(** [s.encoder.Encode(f, value)]: the serialisation is written to the
    file; an error of the write ends the encoding and is its result. *)
Definition Encode (s : t) (f : Files.File) (value : T) : IO (option error) :=
  let (data, cerr) := encoder s value in
  werr <-- Files.Write f data ;;
  ret (match werr with Some e => Some e | None => cerr end).

(** [Put]: open, encode and close first; the first error of encode and
    close is returned; only then is the index searched and the name
    inserted at the position found when there is no match. *)
Definition Put (s : t) (key : string) (value : T) : IO (option error * t) :=
  let name := Url.PathEscape key ++ ext s in
  let path := Filepath.Join (dir s) name in
  r <-- Files.OpenFileWriter path ;;
  match r with
  | Err err => ret (Some err, s)
  | Ok f =>
      err <-- Encode s f value ;;
      err1 <-- Files.Close f ;;
      let err := match err1, err with
                 | Some e1, None => Some e1
                 | _, _ => err
                 end in
      match err with
      | Some e => ret (Some e, s)
      | None =>
          let (i, ok) := GoSort.Find (length (index s)) (find_cmp s name) in
          if negb ok
          then ret (None, set_index s (take i (index s) ++ ([name] ++ drop i (index s)))%list)
          else ret (None, s)
      end
  end.

(** [Delete]: nothing to do without a match; otherwise the file is
    removed, an empty directory left at the path is pruned with its
    error ignored, and the entry at the position found is cut out. *)
Definition Delete (s : t) (key : string) : IO (option error * t) :=
  let name := Url.PathEscape key ++ ext s in
  let path := Filepath.Join (dir s) name in
  let (i, ok) := GoSort.Find (length (index s)) (find_cmp s name) in
  if negb ok then ret (None, s)
  else
    err <-- Files.Remove path ;;
    match err with
    | Some e => ret (Some e, s)
    | None =>
        empty <-- Files.MustIsEmptyDir path ;;
        _ <-- (if empty then Files.Remove path else ret None) ;;
        ret (None, set_index s (take i (index s) ++ drop (i + 1) (index s))%list)
    end.

(** *** Reference definitions for the statements below *)

(** The index positions [lo <= i < hi]. *)
Definition slice (lo hi : Z) (l : list string) : list string :=
  take (Z.to_nat (hi - lo)) (drop (Z.to_nat lo) l).

(** Reading one entry of the index: [Ok None] for a directory, which is
    skipped, [Ok (Some v)] for a file that decodes to [v]. *)
Definition read_entry (s : t) (name : string) : IO (result (option T)) :=
  r <-- Files.Open (Filepath.Join (dir s) name) ;;
  match r with
  | Err err => ret (Err err)
  | Ok f =>
      r <-- Files.Stat f ;;
      match r with
      | Err err => _ <-- Files.Close f ;; ret (Err err)
      | Ok fi =>
          if Files.IsDir fi then _ <-- Files.Close f ;; ret (Ok None)
          else
            rd <-- Files.reader f ;;
            _ <-- Files.Close f ;;
            ret (match decoder s rd with
                 | (_, Some err) => Err err
                 | (value, None) => Ok (Some value)
                 end)
      end
  end.

(** Decoding a sequence of entries in order; the first failure aborts. *)
Fixpoint decode_entries (s : t) (names : list string) : IO (result (list T)) :=
  match names with
  | [] => ret (Ok [])
  | name :: rest =>
      r <-- read_entry s name ;;
      match r with
      | Err err => ret (Err err)
      | Ok v =>
          r' <-- decode_entries s rest ;;
          ret (match r' with
               | Err err => Err err
               | Ok vs => Ok (match v with Some x => x :: vs | None => vs end)
               end)
      end
  end.

(** The decoder is a left inverse of the encoder, up to the codec's
    equivalence [R]: what the encoder writes without error decodes,
    from a reader that delivers exactly those bytes, to an equivalent
    value. *)
Definition codec_inverse (R : T -> T -> Prop) (enc : Encoder) (dec : Decoder) : Prop :=
  forall value data,
    enc value = (data, None) ->
    exists value', dec (Files.mkReader data None) = (value', None) /\ R value' value.

(** Two store states with the same configuration. *)
Definition same_config (s s' : t) : Prop :=
  dir s' = dir s /\ ext s' = ext s /\ comparator s' = comparator s /\
  encoder s' = encoder s /\ decoder s' = decoder s.

(** The calls that change the index, and runs of them. *)
Inductive call : Type :=
  | CLoad
  | CPut (key : string) (value : T)
  | CDelete (key : string).

Definition exec (c : call) (s : t) : IO (option error * t) :=
  match c with
  | CLoad => Load s
  | CPut key value => Put s key value
  | CDelete key => Delete s key
  end.

Fixpoint run (calls : list call) (s : t) : IO t :=
  match calls with
  | [] => ret s
  | c :: rest => r <-- exec c s ;; run rest (snd r)
  end.

End Store.
End LocalStore.

(** ** A concrete store for the examples

    Values are raw byte strings and the codec is the identity: the
    encoder writes the value, the decoder returns what it reads together
    with the reader's error. *)
Module Demo.

(** Slices of byte slices: 24-byte elements in a 48-bit address space. *)
#[global] Instance byte_slices : SliceLimit (list byte) := 2 ^ 48 / 24.

Definition raw_Encode : @LocalStore.Encoder (list byte) :=
  fun value => (value, None).

Definition raw_Decode : @LocalStore.Decoder (list byte) :=
  fun r => (Files.r_data r, Files.r_err r).

Definition store (d : string) (opt : option (@LocalStore.Options (list byte)))
  : @LocalStore.t (list byte) :=
  LocalStore.New raw_Encode raw_Decode d opt.

Definition hello : list byte := list_byte_of_string "hello".
Definition world : list byte := list_byte_of_string "world".

(** An empty file tree and no injected fault. *)
Definition world0 : World := mkWorld ∅ [].

(** The default store after [Put("k", hello)]. *)
Definition put_k : (option error * @LocalStore.t (list byte)) * World :=
  LocalStore.Put (store "data" None) "k" hello world0.

(** The default store after the keys [b], [a] and [c] have been put. *)
Definition put_abc : @LocalStore.t (list byte) * World :=
  LocalStore.run
    [LocalStore.CPut "b" world; LocalStore.CPut "a" hello; LocalStore.CPut "c" hello]
    (store "data" None) world0.

(** A store whose extension has two dots, after [Put("k", hello)]. *)
Definition tar_gz : option (@LocalStore.Options (list byte)) :=
  Some (LocalStore.mkOptions ".tar.gz" None None None).

Definition put_tar_gz : (option error * @LocalStore.t (list byte)) * World :=
  LocalStore.Put (store "data" tar_gz) "k" hello world0.

End Demo.

(** * Properties *)

(** ** Sanity checks of the library models *)

Example Compare_lt : GoStrings.Compare "a.dat" "b.dat" = -1.
Proof. reflexivity. Qed.

Example Ext_dat : Filepath.Ext "k%2Fv.dat" = ".dat".
Proof. reflexivity. Qed.

Example Ext_none : Filepath.Ext "a.b/readme" = "".
Proof. reflexivity. Qed.

Example Join_data : Filepath.Join "data/" "k.dat" = "data/k.dat".
Proof. reflexivity. Qed.

Example Join_dotdot : Filepath.Join "/a/../.." "x" = "/x".
Proof. reflexivity. Qed.

Example PathEscape_slash : Url.PathEscape "a/b c" = "a%2Fb%20c".
Proof. reflexivity. Qed.

Example entries_data :
  Files.entries (<["data/b.dat" := Regular []]> (<["data/a.txt" := Regular []]>
                (<["other/c.dat" := Regular []]> (<["data" := Directory]> ∅)))) "data/"
  ≡ₚ ["a.txt"; "b.dat"].
Proof. vm_compute. reflexivity. Qed.

(** ** The default comparator is a total order *)
Section DefaultComparator.

Lemma nat_of_ascii_inj (x y : ascii) : nat_of_ascii x = nat_of_ascii y -> x = y.
Proof.
  intros E. rewrite <- (ascii_nat_embedding x), <- (ascii_nat_embedding y).
  now rewrite E.
Qed.

Lemma Compare_range (a b : string) :
  GoStrings.Compare a b = -1 \/ GoStrings.Compare a b = 0 \/ GoStrings.Compare a b = 1.
Proof.
  revert b. induction a as [|x a IH]; intros [|y b]; simpl; auto.
  destruct (nat_of_ascii x <? nat_of_ascii y)%nat; auto.
  destruct (nat_of_ascii y <? nat_of_ascii x)%nat; auto.
Qed.

Lemma Compare_refl (a : string) : GoStrings.Compare a a = 0.
Proof.
  induction a as [|x a IH]; simpl; [reflexivity|].
  now rewrite Nat.ltb_irrefl.
Qed.

Lemma Compare_eq (a b : string) : GoStrings.Compare a b = 0 -> a = b.
Proof.
  revert b. induction a as [|x a IH]; intros [|y b]; simpl; try discriminate; auto.
  destruct (Nat.ltb_spec (nat_of_ascii x) (nat_of_ascii y)); [discriminate|].
  destruct (Nat.ltb_spec (nat_of_ascii y) (nat_of_ascii x)); [discriminate|].
  intros E. f_equal; [apply nat_of_ascii_inj; lia | now apply IH].
Qed.

Lemma Compare_flip (a b : string) :
  GoStrings.Compare a b < 0 <-> 0 < GoStrings.Compare b a.
Proof.
  revert b. induction a as [|x a IH]; intros [|y b]; simpl; try lia.
  destruct (Nat.ltb_spec (nat_of_ascii x) (nat_of_ascii y));
    destruct (Nat.ltb_spec (nat_of_ascii y) (nat_of_ascii x)); try lia.
  apply IH.
Qed.

Lemma Compare_trans (a b c : string) :
  GoStrings.Compare a b < 0 -> GoStrings.Compare b c < 0 -> GoStrings.Compare a c < 0.
Proof.
  revert b c. induction a as [|x a IH]; intros [|y b] [|z c]; simpl; try lia.
  destruct (Nat.ltb_spec (nat_of_ascii x) (nat_of_ascii y));
    destruct (Nat.ltb_spec (nat_of_ascii y) (nat_of_ascii x));
    destruct (Nat.ltb_spec (nat_of_ascii y) (nat_of_ascii z));
    destruct (Nat.ltb_spec (nat_of_ascii z) (nat_of_ascii y));
    destruct (Nat.ltb_spec (nat_of_ascii x) (nat_of_ascii z));
    destruct (Nat.ltb_spec (nat_of_ascii z) (nat_of_ascii x)); try lia.
  apply IH.
Qed.

Lemma Compare_TotalOrder : TotalOrder GoStrings.Compare.
Proof.
  constructor.
  - apply Compare_refl.
  - apply Compare_eq.
  - apply Compare_flip.
  - apply Compare_trans.
Qed.

End DefaultComparator.

(** ** Consequences of the comparator contract *)
Section Order.

Variable cmp : string -> string -> Z.
Hypothesis cmp_total : TotalOrder cmp.

Lemma cmp_le_flip (a b : string) : 0 <= cmp a b -> cmp b a <= 0.
Proof.
  intros H. destruct (Z.eq_dec (cmp a b) 0) as [E|NE].
  - apply (cmp_eq _ cmp_total) in E. subst. rewrite (cmp_refl _ cmp_total). lia.
  - assert (0 < cmp a b) as H' by lia.
    apply (cmp_flip _ cmp_total) in H'. lia.
Qed.

Lemma cmp_le_trans (a b c : string) : cmp a b <= 0 -> cmp b c <= 0 -> cmp a c <= 0.
Proof.
  intros H1 H2.
  destruct (Z.eq_dec (cmp a b) 0) as [E|NE].
  { apply (cmp_eq _ cmp_total) in E. now subst. }
  destruct (Z.eq_dec (cmp b c) 0) as [E|NE'].
  { apply (cmp_eq _ cmp_total) in E. now subst. }
  pose proof (cmp_trans _ cmp_total a b c). lia.
Qed.

Lemma cmp_le_antisym (a b : string) : cmp a b <= 0 -> cmp b a <= 0 -> a = b.
Proof.
  intros H1 H2. apply (cmp_eq _ cmp_total).
  destruct (Z.eq_dec (cmp a b) 0) as [E|NE]; [assumption|].
  assert (cmp a b < 0) as H by lia.
  apply (cmp_flip _ cmp_total) in H. lia.
Qed.

Lemma sorted_by_lookup (l : list string) (i j : nat) (a b : string) :
  sorted_by cmp l -> (i <= j)%nat -> l !! i = Some a -> l !! j = Some b -> cmp a b <= 0.
Proof.
  intros Hs. revert i j. induction Hs as [|x l Hs IH Hx]; intros i j Hij Hi Hj.
  - discriminate.
  - destruct i as [|i], j as [|j]; simpl in *.
    + simplify_eq. rewrite (cmp_refl _ cmp_total). lia.
    + simplify_eq. rewrite Forall_forall in Hx. apply Hx.
      eapply list_elem_of_lookup_2. eassumption.
    + lia.
    + eapply IH; [|eassumption..]. lia.
Qed.

End Order.

(** ** [sort.Find] *)
Section Find.

Variable n : nat.
Variable c : nat -> Z.

(** The search is meaningful when the probe is monotone: once it is not
    positive it stays so. *)
Hypothesis c_mono : forall h h', (h <= h')%nat -> (h' < n)%nat -> c h <= 0 -> c h' <= 0.

Lemma midpoint_bounds (i j : nat) : (i < j)%nat -> (i <= (i + j) / 2 < j)%nat.
Proof.
  intros Hij.
  pose proof (Nat.div_mod_eq (i + j) 2) as E.
  pose proof (Nat.mod_upper_bound (i + j) 2). lia.
Qed.

(** With [j - i] units of fuel the loop runs to its exit and keeps the
    invariant of the Go source: [cmp(i-1) > 0] and [cmp(j) <= 0]. *)
Lemma Find_loop_fuel (fuel i j : nat) :
  (i <= j)%nat -> (j <= n)%nat -> (j - i <= fuel)%nat ->
  (forall h, (h < i)%nat -> 0 < c h) ->
  (forall h, (j <= h)%nat -> (h < n)%nat -> c h <= 0) ->
  let r := GoSort.Find_loop fuel c i j in
  (i <= r)%nat /\ (r <= j)%nat /\
  (forall h, (h < r)%nat -> 0 < c h) /\
  (forall h, (r <= h)%nat -> (h < n)%nat -> c h <= 0).
Proof.
  revert i j. induction fuel as [|fuel IH]; intros i j Hij Hjn Hfuel Hlo Hhi;
    cbn [GoSort.Find_loop].
  - assert (i = j) by lia. subst. repeat split; auto.
  - destruct (Nat.ltb_spec i j) as [Hlt|Hge].
    + pose proof (midpoint_bounds i j Hlt) as [Hm1 Hm2].
      destruct (Z.ltb_spec 0 (c ((i + j) / 2))) as [Hpos|Hneg].
      * destruct (IH ((i + j) / 2 + 1)%nat j) as (R1 & R2 & R3 & R4); try lia; auto.
        { intros h Hh. destruct (Z.ltb_spec 0 (c h)) as [|Hc]; [assumption|].
          exfalso. assert (c ((i + j) / 2) <= 0); [|lia].
          apply (c_mono h); [lia|lia|assumption]. }
        repeat split; auto. lia.
      * destruct (IH i ((i + j) / 2)%nat) as (R1 & R2 & R3 & R4); try lia; auto.
        { intros h Hh Hn. apply (c_mono ((i + j) / 2)); [assumption|assumption|assumption]. }
        repeat split; auto. lia.
    + assert (i = j) by lia. subst. repeat split; auto.
Qed.

Lemma Find_spec :
  let (i, ok) := GoSort.Find n c in
  (i <= n)%nat /\
  (forall h, (h < i)%nat -> 0 < c h) /\
  (forall h, (i <= h)%nat -> (h < n)%nat -> c h <= 0) /\
  (ok = true <-> (i < n)%nat /\ c i = 0).
Proof.
  unfold GoSort.Find.
  destruct (Find_loop_fuel n 0 n) as (R1 & R2 & R3 & R4); try lia.
  cbv zeta in *. split; [assumption|]. split; [assumption|]. split; [assumption|].
  rewrite andb_true_iff, Nat.ltb_lt, Z.eqb_eq. reflexivity.
Qed.

End Find.

(** [sort.Find] on a sorted index. *)
Section FindSorted.

Variable cmp : string -> string -> Z.
Hypothesis cmp_total : TotalOrder cmp.
Variable idx : list string.
Hypothesis idx_sorted : sorted_by cmp idx.
Variable name : string.

Local Abbreviation probe := (fun i : nat => cmp name (nth i idx "")).

Lemma nth_lookup_string (i : nat) :
  (i < length idx)%nat -> idx !! i = Some (nth i idx "").
Proof.
  intros Hi. destruct (lookup_lt_is_Some_2 idx i Hi) as [x Hx].
  rewrite Hx. f_equal. symmetry. now apply nth_lookup_Some with (d := "") in Hx.
Qed.

Lemma probe_mono (h h' : nat) :
  (h <= h')%nat -> (h' < length idx)%nat -> probe h <= 0 -> probe h' <= 0.
Proof.
  intros Hh Hn Hc. cbv beta in *.
  apply (cmp_le_trans cmp cmp_total _ (nth h idx "")); [assumption|].
  eapply (sorted_by_lookup cmp cmp_total idx h h'); try eassumption.
  - apply nth_lookup_string. lia.
  - now apply nth_lookup_string.
Qed.

(** The position found splits the index into the names below [name] and
    the names not below it, and the match flag is membership. *)
Lemma Find_sorted :
  let (i, ok) := GoSort.Find (length idx) probe in
  (i <= length idx)%nat /\
  (forall x, x ∈ take i idx -> cmp x name < 0) /\
  (forall x, x ∈ drop i idx -> cmp name x <= 0) /\
  (ok = true <-> name ∈ idx) /\
  (ok = true -> idx !! i = Some name).
Proof.
  pose proof (Find_spec (length idx) probe probe_mono) as H.
  destruct (GoSort.Find (length idx) probe) as [i ok].
  destruct H as (Hi & Hlo & Hhi & Hok).
  assert (Hbelow : forall x, x ∈ take i idx -> cmp x name < 0).
  { intros x Hx. apply list_elem_of_lookup in Hx as [h Hx].
    apply lookup_take_Some in Hx as [Hx Hh].
    apply (cmp_flip _ cmp_total). specialize (Hlo h Hh). cbv beta in Hlo.
    apply nth_lookup_Some with (d := "") in Hx. now rewrite Hx in Hlo. }
  assert (Habove : forall x, x ∈ drop i idx -> cmp name x <= 0).
  { intros x Hx. apply list_elem_of_lookup in Hx as [h Hx].
    rewrite lookup_drop in Hx.
    pose proof (lookup_lt_Some _ _ _ Hx) as Hlt.
    specialize (Hhi (i + h)%nat ltac:(lia) Hlt). cbv beta in Hhi.
    apply nth_lookup_Some with (d := "") in Hx. now rewrite Hx in Hhi. }
  assert (Hat : ok = true -> idx !! i = Some name).
  { intros E. apply Hok in E as [Hlt E]. cbv beta in E.
    apply (cmp_eq _ cmp_total) in E. rewrite nth_lookup_string by assumption.
    now rewrite <- E. }
  repeat split; auto.
  - intros E. eapply list_elem_of_lookup_2. now apply Hat.
  - intros Hin. apply Hok.
    rewrite <- (take_drop i idx) in Hin. apply elem_of_app in Hin as [Hin|Hin].
    { apply Hbelow in Hin. rewrite (cmp_refl _ cmp_total) in Hin. lia. }
    assert (Hlt : (i < length idx)%nat).
    { destruct (Nat.ltb_spec i (length idx)); [assumption|].
      rewrite drop_ge in Hin by lia. inversion Hin. }
    split; [assumption|].
    assert (name = nth i idx "") as E; [|cbv beta; rewrite <- E; apply (cmp_refl _ cmp_total)].
    apply (cmp_le_antisym cmp cmp_total).
    + apply Habove. apply list_elem_of_lookup. exists 0%nat.
      rewrite lookup_drop, Nat.add_0_r. now apply nth_lookup_string.
    + apply list_elem_of_lookup in Hin as [h Hx]. rewrite lookup_drop in Hx.
      eapply (sorted_by_lookup cmp cmp_total idx i (i + h)); try eassumption; [lia|].
      now apply nth_lookup_string.
Qed.

End FindSorted.

(** ** [sort.Slice] and the two index updates keep the order *)
Section SortedUpdates.

Variable cmp : string -> string -> Z.
Hypothesis cmp_total : TotalOrder cmp.

Local Abbreviation less := (fun a b : string => cmp a b <? 0).

Lemma insert_sorted_Permutation (x : string) (l : list string) :
  GoSort.insert_sorted less x l ≡ₚ x :: l.
Proof.
  induction l as [|y l IH]; simpl; [reflexivity|].
  destruct (cmp x y <? 0); [reflexivity|].
  rewrite IH. apply perm_swap.
Qed.

Lemma Slice_Permutation (l : list string) : GoSort.Slice less l ≡ₚ l.
Proof.
  induction l as [|x l IH]; simpl; [reflexivity|].
  rewrite insert_sorted_Permutation. now rewrite IH.
Qed.

Lemma insert_sorted_sorted (x : string) (l : list string) :
  sorted_by cmp l -> sorted_by cmp (GoSort.insert_sorted less x l).
Proof.
  unfold sorted_by. induction 1 as [|y l Hs IH Hy]; simpl.
  - repeat constructor.
  - destruct (Z.ltb_spec (cmp x y) 0) as [Hlt|Hge].
    + constructor; [now constructor|].
      constructor; [lia|].
      eapply Forall_impl; [exact Hy|]. cbv beta. intros z Hz.
      apply (cmp_le_trans cmp cmp_total x y z); [lia|assumption].
    + constructor; [assumption|].
      rewrite insert_sorted_Permutation. constructor; [|assumption].
      now apply (cmp_le_flip cmp cmp_total).
Qed.

Lemma Slice_sorted (l : list string) : sorted_by cmp (GoSort.Slice less l).
Proof.
  induction l as [|x l IH]; simpl; [constructor|].
  now apply insert_sorted_sorted.
Qed.

(** Under the comparator contract the sorted arrangement of a sequence
    is unique, so every correct sort computes [GoSort.Slice]. *)
Lemma sorted_perm_unique (l1 l2 : list string) :
  sorted_by cmp l1 -> sorted_by cmp l2 -> l1 ≡ₚ l2 -> l1 = l2.
Proof.
  apply StronglySorted_unique_strong.
  intros x1 x2 _ _. apply (cmp_le_antisym cmp cmp_total).
Qed.

(** [append(index[:i], append([]string{name}, index[i:]...)...)] at the
    position found by [sort.Find]. *)
Lemma insert_at_sorted (idx : list string) (name : string) (i : nat) :
  sorted_by cmp idx ->
  (forall x, x ∈ take i idx -> cmp x name < 0) ->
  (forall x, x ∈ drop i idx -> cmp name x <= 0) ->
  sorted_by cmp (take i idx ++ ([name] ++ drop i idx))%list.
Proof.
  intros Hs Hlo Hhi. unfold sorted_by in *.
  rewrite <- (take_drop i idx) in Hs.
  apply StronglySorted_app in Hs as (Hx & Hl & Hr).
  apply StronglySorted_app_2.
  - intros x1 x2 H1 H2. apply elem_of_app in H2 as [H2|H2].
    + apply list_elem_of_singleton in H2. subst. specialize (Hlo _ H1). lia.
    + now apply Hx.
  - assumption.
  - simpl. constructor; [assumption|]. now apply Forall_forall.
Qed.

(** [append(index[:i], index[i+1:]...)] *)
Lemma delete_at_sorted (idx : list string) (i : nat) :
  sorted_by cmp idx -> sorted_by cmp (take i idx ++ drop (i + 1) idx)%list.
Proof.
  intros Hs. unfold sorted_by in *.
  rewrite <- (take_drop i idx) in Hs.
  apply StronglySorted_app in Hs as (Hx & Hl & Hr).
  apply StronglySorted_app_2; [|assumption|].
  - intros x1 x2 H1 H2. apply Hx; [assumption|].
    rewrite <- (drop_drop idx 1 i) in H2. eapply subseteq_drop; eassumption.
  - rewrite <- (drop_drop idx 1 i).
    destruct (drop i idx) as [|y l]; [constructor|].
    simpl. rewrite drop_0. now apply StronglySorted_inv in Hr as [Hr _].
Qed.

End SortedUpdates.

(** ** [filepath.Ext] *)
Section Ext.

Lemma list_ascii_of_string_app (a b : string) :
  list_ascii_of_string (a ++ b) = (list_ascii_of_string a ++ list_ascii_of_string b)%list.
Proof. induction a as [|c a IH]; simpl; [reflexivity | now rewrite IH]. Qed.

Lemma string_of_list_ascii_app (a b : list ascii) :
  string_of_list_ascii (a ++ b)%list = string_of_list_ascii a ++ string_of_list_ascii b.
Proof. induction a as [|c a IH]; simpl; [reflexivity | now rewrite IH]. Qed.

(** Whatever [Ext] returns is a suffix of the path. *)
Lemma Ext_scan_suffix (r acc : list ascii) :
  Filepath.Ext_scan r acc = "" \/
  exists k, Filepath.Ext_scan r acc = string_of_list_ascii (rev (take k r) ++ acc)%list.
Proof.
  revert acc. induction r as [|c r IH]; intros acc; simpl; [now left|].
  destruct (Filepath.IsPathSeparator c); [now left|].
  destruct (Ascii.eqb c "."%char).
  - right. exists 1%nat. reflexivity.
  - destruct (IH (c :: acc)) as [E|[k E]]; [now left|].
    right. exists (S k). rewrite E. simpl. now rewrite <- app_assoc.
Qed.

Lemma Ext_suffix (name : string) :
  exists stem, name = stem ++ Filepath.Ext name.
Proof.
  unfold Filepath.Ext.
  destruct (Ext_scan_suffix (rev (list_ascii_of_string name)) []) as [E|[k E]].
  - rewrite E. exists name. clear E. induction name as [|c n IH]; [reflexivity|].
    change (String c n = String c (n ++ "")). f_equal. exact IH.
  - rewrite E, app_nil_r.
    exists (string_of_list_ascii (rev (drop k (rev (list_ascii_of_string name))))).
    rewrite <- string_of_list_ascii_app, <- rev_app_distr, take_drop, rev_involutive.
    now rewrite string_of_list_ascii_of_string.
Qed.

(** Scanning back over characters that are neither dot nor separator
    and then meeting a dot yields the dot and what was scanned. *)
Lemma Ext_scan_simple (r0 rest acc : list ascii) :
  forallb (fun x => negb (Ascii.eqb x "."%char) && negb (Filepath.IsPathSeparator x)) r0 = true ->
  Filepath.Ext_scan (r0 ++ "."%char :: rest)%list acc =
  string_of_list_ascii ("."%char :: rev r0 ++ acc)%list.
Proof.
  revert acc. induction r0 as [|c r0 IH]; intros acc H; simpl.
  - reflexivity.
  - simpl in H. apply andb_true_iff in H as [Hc H].
    apply andb_true_iff in Hc as [Hdot Hsep].
    apply negb_true_iff in Hdot, Hsep. rewrite Hsep, Hdot, IH by assumption.
    now rewrite <- app_assoc.
Qed.

(** For an extension of the simple form, [Ext] returns it exactly on
    the names that end with it. *)
Lemma Ext_simple (e name : string) :
  Filepath.is_simple_ext e = true ->
  Filepath.Ext name = e <-> exists stem, name = stem ++ e.
Proof.
  intros He. split.
  - intros <-. apply Ext_suffix.
  - intros [stem ->]. destruct e as [|c rest]; [discriminate|].
    simpl in He. apply andb_true_iff in He as [Hc Hrest].
    apply Ascii.eqb_eq in Hc. subst c.
    unfold Filepath.Ext. rewrite list_ascii_of_string_app. simpl.
    rewrite rev_app_distr. simpl. rewrite <- app_assoc. simpl.
    rewrite Ext_scan_simple.
    + rewrite rev_involutive, app_nil_r. simpl.
      now rewrite string_of_list_ascii_of_string.
    + rewrite forallb_forall in *. intros x Hx. apply Hrest.
      now apply in_rev.
Qed.

End Ext.

(** ** The store *)
Section StoreProperties.

Import LocalStore.

Context {T : Type} `{!Inhabited T} `{!SliceLimit T}.
Implicit Types (s : @t T) (w : World) (key name : string) (value : T).

#[local] Arguments GoSort.Find : simpl never.
#[local] Arguments Filepath.Join : simpl never.
#[local] Arguments Url.PathEscape : simpl never.

(** Case analysis on the next call into the world. *)
Ltac io_case :=
  match goal with
  | |- context [let (_, _) := ?c in _] => destruct c as [? ?] eqn:?
  | |- context [match ?c with _ => _ end] => destruct c eqn:?
  | |- context [if ?c then _ else _] => destruct c eqn:?
  end.

Ltac io_unfold := unfold bind, ret in *; cbn beta iota in *.

(** *** The calls never touch the configuration *)

Lemma same_config_refl s : same_config s s.
Proof. repeat split. Qed.

Lemma same_config_set_index s idx : same_config s (set_index s idx).
Proof. repeat split. Qed.

Lemma Load_config s w : same_config s (snd (fst (Load s w))).
Proof.
  unfold Load. io_unfold. destruct (Files.MustReadDirnames (dir s) w) as [names w'].
  apply same_config_set_index.
Qed.

Lemma Put_config s key value w : same_config s (snd (fst (Put s key value w))).
Proof.
  unfold Put. io_unfold.
  repeat io_case; simpl; auto using same_config_refl, same_config_set_index.
Qed.

Lemma Delete_config s key w : same_config s (snd (fst (Delete s key w))).
Proof.
  unfold Delete. io_unfold.
  repeat io_case; simpl; auto using same_config_refl, same_config_set_index.
Qed.

(** *** Each call keeps the index sorted *)
Lemma Load_sorted s w :
  TotalOrder (comparator s) ->
  sorted_by (comparator s) (index (snd (fst (Load s w)))).
Proof.
  intros Htot. unfold Load. io_unfold.
  destruct (Files.MustReadDirnames (dir s) w) as [names w']. simpl.
  now apply Slice_sorted.
Qed.

Lemma Put_sorted s key value w :
  TotalOrder (comparator s) ->
  sorted_by (comparator s) (index s) ->
  sorted_by (comparator s) (index (snd (fst (Put s key value w)))).
Proof.
  intros Htot Hs. unfold Put. io_unfold.
  pose proof (Find_sorted (comparator s) Htot (index s) Hs
                (Url.PathEscape key ++ ext s)) as HF.
  unfold find_cmp.
  destruct (GoSort.Find _ _) as [i ok]. destruct HF as (_ & Hlo & Hhi & _).
  repeat io_case; simpl; auto.
  now apply insert_at_sorted.
Qed.

Lemma Delete_sorted s key w :
  TotalOrder (comparator s) ->
  sorted_by (comparator s) (index s) ->
  sorted_by (comparator s) (index (snd (fst (Delete s key w)))).
Proof.
  intros Htot Hs. unfold Delete. io_unfold.
  repeat io_case; simpl; auto.
  now apply delete_at_sorted.
Qed.

Lemma exec_config (c : @call T) s w : same_config s (snd (fst (exec c s w))).
Proof.
  destruct c; simpl; [apply Load_config | apply Put_config | apply Delete_config].
Qed.

Lemma exec_sorted (c : @call T) s w :
  TotalOrder (comparator s) ->
  sorted_by (comparator s) (index s) ->
  sorted_by (comparator s) (index (snd (fst (exec c s w)))).
Proof.
  intros Htot Hs. destruct c; simpl;
    [now apply Load_sorted | now apply Put_sorted | now apply Delete_sorted].
Qed.

Lemma run_sorted (calls : list (@call T)) s w :
  TotalOrder (comparator s) ->
  sorted_by (comparator s) (index s) ->
  comparator (fst (run calls s w)) = comparator s /\
  sorted_by (comparator s) (index (fst (run calls s w))).
Proof.
  revert s w. induction calls as [|c calls IH]; intros s w Htot Hs; simpl.
  - split; [reflexivity | assumption].
  - unfold bind. destruct (exec c s w) as [r w'] eqn:E.
    pose proof (exec_config c s w) as (_ & _ & Hc & _).
    pose proof (exec_sorted c s w Htot Hs) as Hs'.
    rewrite E in Hc, Hs'. simpl in Hc, Hs'.
    destruct (IH (snd r) w') as [IH1 IH2].
    + now rewrite Hc.
    + now rewrite Hc.
    + rewrite IH1, Hc in *. split; [reflexivity | assumption].
Qed.

(** C5 (sort invariant).  Starting from a newly created store whose
    comparator is a valid total order, after any finite sequence of
    [Load], [Put] and [Delete] calls, in any world and under any schedule
    of failures, the index is sorted per the comparator.  Every prefix of
    a sequence is a sequence, so the index is sorted after each call. *)
Theorem index_sorted_after_calls
    (gob_Encode : @Encoder T) (gob_Decode : @Decoder T)
    (d : string) (opt : option (@Options T)) (calls : list (@call T)) w :
  let s0 := New gob_Encode gob_Decode d opt in
  TotalOrder (comparator s0) ->
  sorted_by (comparator s0) (index (fst (run calls s0 w))).
Proof.
  intros s0 Htot. apply run_sorted; [assumption|].
  unfold s0, New. destruct opt; constructor.
Qed.

(** *** [Load] *)

Lemma Load_returns_nil s w : fst (fst (Load s w)) = None.
Proof.
  unfold Load. io_unfold. now destruct (Files.MustReadDirnames (dir s) w).
Qed.


(** What [Load] leaves in the index: a rearrangement of the names of the
    listing whose [filepath.Ext] is the configured extension. *)
Lemma Load_index_filter s w :
  index (snd (fst (Load s w))) ≡ₚ
  List.filter (fun name => String.eqb (Filepath.Ext name) (ext s))
              (fst (Files.MustReadDirnames (dir s) w)).
Proof.
  unfold Load. io_unfold.
  destruct (Files.MustReadDirnames (dir s) w) as [names w']. simpl.
  apply Slice_Permutation.
Qed.

(** The index after [Load] holds exactly the listed names whose
    [filepath.Ext] is the configured extension. *)
Theorem Load_index_elem_of s w name :
  name ∈ index (snd (fst (Load s w))) <->
  name ∈ fst (Files.MustReadDirnames (dir s) w) /\ Filepath.Ext name = ext s.
Proof.
  rewrite Load_index_filter, !list_elem_of_In, filter_In.
  now rewrite String.eqb_eq.
Qed.

(** For a configured extension of the simple form (a dot followed by
    characters other than dot and separator, as the default [.dat]) the
    index after [Load] holds exactly the listed names that end with the
    extension. *)
Theorem Load_index_simple_ext s w name :
  Filepath.is_simple_ext (ext s) = true ->
  name ∈ index (snd (fst (Load s w))) <->
  name ∈ fst (Files.MustReadDirnames (dir s) w) /\ exists stem, name = stem ++ ext s.
Proof.
  intros He.
  rewrite Load_index_filter, !list_elem_of_In, filter_In, String.eqb_eq.
  now rewrite (Ext_simple (ext s) name He).
Qed.

(** *** [List] *)

Lemma index_at_Some s (i : Z) name :
  index_at s i = Some name <-> 0 <= i /\ index s !! Z.to_nat i = Some name.
Proof.
  unfold index_at. destruct (Z.ltb_spec i 0); split; try discriminate; try lia; tauto.
Qed.

Lemma index_at_None s (i : Z) :
  index_at s i = None <-> i < 0 \/ Z.of_nat (length (index s)) <= i.
Proof.
  unfold index_at. destruct (Z.ltb_spec i 0); [tauto|].
  rewrite lookup_ge_None. lia.
Qed.

(** C1, at the failing calls.  With [offset] at or past the end of the
    index and [limit] above [offset], the call panics: the first
    iteration of the loop reads [s.index[offset]] out of range (or the
    allocation of [limit] slots has panicked before). *)
Theorem List_past_total_panics s (offset limit : Z) w :
  Z.of_nat (length (index s)) <= offset -> offset < limit ->
  exists msg, List s offset limit w = (Panic msg, w) /\
              (limit <= slice_max_cap -> msg = "index out of range").
Proof.
  intros Hoff Hlim. unfold List. io_unfold.
  destruct (Z.ltb_spec limit 0); [lia|].
  destruct (Z.ltb_spec slice_max_cap limit).
  { eexists. split; [reflexivity | lia]. }
  destruct (Z.to_nat (limit - offset)) as [|n] eqn:En; [lia|].
  simpl. assert (index_at s offset = None) as -> by (apply index_at_None; lia).
  eexists. split; reflexivity.
Qed.

(** The calls past the end that do return: with a negative limit, or a
    limit not above the offset, [List] returns the empty page. *)
Theorem List_past_total_empty s (offset limit : Z) w :
  Z.of_nat (length (index s)) <= offset -> limit < 0 \/ limit <= offset ->
  (if limit <? 0 then Z.of_nat (length (index s)) else limit) <= slice_max_cap ->
  List s offset limit w =
  (Return (mkList [] offset limit (Z.of_nat (length (index s))), None), w).
Proof.
  intros Hoff Hlim Hcap. unfold List. io_unfold.
  destruct (Z.ltb_spec limit 0).
  - destruct (Z.ltb_spec slice_max_cap (Z.of_nat (length (index s)))); [lia|].
    replace (Z.to_nat (Z.of_nat (length (index s)) - offset)) with 0%nat by lia.
    reflexivity.
  - destruct (Z.ltb_spec slice_max_cap limit); [lia|].
    replace (Z.to_nat (limit - offset)) with 0%nat by lia. reflexivity.
Qed.

(** The loop of [List] over a range that lies inside the index is the
    in-order decoding of the entries of that range. *)
Lemma List_loop_in_range s (n : nat) (i : Z) (values : list T) w :
  0 <= i -> (Z.to_nat i + n <= length (index s))%nat ->
  List_loop s n i values w =
  (let (r, w') := decode_entries s (take n (drop (Z.to_nat i) (index s))) w in
   (Return (match r with
            | Ok vs => Ok (values ++ vs)%list
            | Err err => Err err
            end), w')).
Proof.
  revert i values w. induction n as [|n IH]; intros i values w Hi Hn.
  - simpl. io_unfold. now rewrite app_nil_r.
  - assert (Hlt : (Z.to_nat i < length (index s))%nat) by lia.
    destruct (lookup_lt_is_Some_2 _ _ Hlt) as [name Hname].
    assert (Hat : index_at s i = Some name) by (now apply index_at_Some).
    rewrite (drop_S _ _ _ Hname). cbn [List_loop take decode_entries].
    rewrite Hat. unfold read_entry. io_unfold.
    replace (S (Z.to_nat i)) with (Z.to_nat (i + 1)) by lia.
    destruct (Files.Open _ w) as [[f|err] w1]; [|reflexivity].
    destruct (Files.Stat f w1) as [[fi|err] w2].
    + destruct (Files.IsDir fi).
      * destruct (Files.Close f w2) as [c w3].
        rewrite IH by lia.
        destruct (decode_entries s _ w3) as [[vs|err] w4]; reflexivity.
      * destruct (Files.reader f w2) as [rd w3].
        destruct (decoder s rd) as [value [err|]];
          destruct (Files.Close f w3) as [c w4]; [reflexivity|].
        rewrite IH by lia.
        destruct (decode_entries s _ w4) as [[vs|err] w5]; [|reflexivity].
        now rewrite <- app_assoc.
    + destruct (Files.Close f w2) as [c w3]. reflexivity.
Qed.



(** *** The file layer, as far as [Put], [Get] and [Delete] need it *)

Lemma fault_fs w : fs (snd (Files.fault w)) = fs w.
Proof. unfold Files.fault. now destruct (faults w). Qed.

Lemma fault_quiet w :
  quiet w -> fst (Files.fault w) = None /\ quiet (snd (Files.fault w)).
Proof.
  unfold quiet, Files.fault. intros Hq. destruct (faults w) as [|f rest] eqn:E; simpl.
  - rewrite E. split; [reflexivity | constructor].
  - apply Forall_cons in Hq as [-> Hq]. split; [reflexivity | assumption].
Qed.

Lemma OpenFileWriter_Ok path w (f : Files.File) w1 :
  Files.OpenFileWriter path w = (Ok f, w1) ->
  f = Files.mkFile path (Regular []) /\
  exists w0, fs w0 = fs w /\ fs w1 = <[path := Regular []]> (fs w0).
Proof.
  unfold Files.OpenFileWriter. io_unfold. intros E.
  pose proof (fault_fs w) as Hfs.
  destruct (Files.fault w) as [[e|] w0]; [discriminate|]. simpl in Hfs.
  destruct (fs w0 !! path) as [[data|]|] eqn:El; try discriminate;
    injection E as <- <-; (split; [reflexivity|]); exists w0; rewrite Hfs; auto.
Qed.

Lemma Write_None (f : Files.File) (data : bytes) w w1 :
  Files.Write f data w = (None, w1) ->
  fs w1 = <[Files.f_path f :=
             Regular (match fs w !! Files.f_path f with
                      | Some (Regular d) => d
                      | _ => []
                      end ++ data)%list]> (fs w).
Proof.
  unfold Files.Write. io_unfold. intros E.
  pose proof (fault_fs w) as Hfs.
  destruct (Files.fault w) as [[e|] w0]; [discriminate|]. simpl in Hfs.
  injection E as <-. simpl. now rewrite Hfs.
Qed.

Lemma Close_fs (f : Files.File) w : fs (snd (Files.Close f w)) = fs w.
Proof. apply fault_fs. Qed.

(** *** [Put] *)

(** A [Put] that returns [nil] has opened, written and closed the file
    without error, and only then looked at the index. *)
Lemma Put_success s key value w s' w' :
  let name := Url.PathEscape key ++ ext s in
  let path := Filepath.Join (dir s) name in
  Put s key value w = ((None, s'), w') ->
  (exists data, encoder s value = (data, None) /\ fs w' !! path = Some (Regular data)) /\
  s' = (let (i, ok) := GoSort.Find (length (index s)) (find_cmp s name) in
        if negb ok
        then set_index s (take i (index s) ++ ([name] ++ drop i (index s)))%list
        else s).
Proof.
  intros name path. unfold Put. fold name. fold path. io_unfold.
  destruct (Files.OpenFileWriter path w) as [[f|e] w1] eqn:EO; [|discriminate].
  apply OpenFileWriter_Ok in EO as (-> & w0 & _ & Hw1).
  unfold Encode. destruct (encoder s value) as [data cerr]. io_unfold.
  destruct (Files.Write _ data w1) as [werr w2] eqn:EW.
  pose proof (Close_fs (Files.mkFile path (Regular [])) w2) as HC.
  destruct (Files.Close _ w2) as [err1 w3]. simpl in HC.
  destruct werr as [e|]; [destruct err1; discriminate|].
  destruct cerr as [e|]; [destruct err1; discriminate|].
  destruct err1 as [e|]; [discriminate|].
  apply Write_None in EW. simpl in EW.
  rewrite Hw1, lookup_insert_eq in EW. simpl in EW.
  assert (Hfile : fs w3 !! path = Some (Regular data)).
  { rewrite HC, EW. apply lookup_insert_eq. }
  destruct (GoSort.Find _ _) as [i ok].
  destruct ok; simpl; intros E; injection E as <- <-; (split; [eauto | reflexivity]).
Qed.

(** C9 (error priority and ordering in [Put]).  An error of opening the
    file is returned as it is; once the file is open, an error of the
    encoding is returned whatever [Close] says; an error of [Close] is
    returned when the encoding succeeded; and a [Put] that returns an
    error leaves the store, and so the index, as it was: the index is
    searched and changed only after the write and the close succeeded. *)
Theorem Put_error_priority s key value w :
  let path := Filepath.Join (dir s) (Url.PathEscape key ++ ext s) in
  (forall e w1, Files.OpenFileWriter path w = (Err e, w1) ->
     Put s key value w = ((Some e, s), w1)) /\
  (forall f w1 e w2,
     Files.OpenFileWriter path w = (Ok f, w1) ->
     Encode s f value w1 = (Some e, w2) ->
     Put s key value w = ((Some e, s), snd (Files.Close f w2))) /\
  (forall f w1 w2 e1 w3,
     Files.OpenFileWriter path w = (Ok f, w1) ->
     Encode s f value w1 = (None, w2) ->
     Files.Close f w2 = (Some e1, w3) ->
     Put s key value w = ((Some e1, s), w3)) /\
  (forall e, fst (fst (Put s key value w)) = Some e ->
     snd (fst (Put s key value w)) = s) /\
  (index (snd (fst (Put s key value w))) <> index s ->
     exists f w1 w2 w3,
       Files.OpenFileWriter path w = (Ok f, w1) /\
       Encode s f value w1 = (None, w2) /\
       Files.Close f w2 = (None, w3)).
Proof.
  intros path. unfold Put. fold path. io_unfold.
  split; [|split; [|split; [|split]]].
  - intros e w1 ->. reflexivity.
  - intros f w1 e w2 -> ->. destruct (Files.Close f w2) as [[e1|] w3]; reflexivity.
  - intros f w1 w2 e1 w3 -> -> ->. reflexivity.
  - intros e.
    destruct (Files.OpenFileWriter path w) as [[f|e0] w1]; cbn [fst snd]; [|congruence].
    destruct (Encode s f value w1) as [err w2].
    destruct (Files.Close f w2) as [err1 w3].
    destruct err as [e0|], err1 as [e1|]; cbn [fst snd]; try congruence.
    destruct (GoSort.Find _ _) as [i ok]. destruct ok; cbn [fst snd negb]; congruence.
  - destruct (Files.OpenFileWriter path w) as [[f|e] w1] eqn:EO; cbn [fst snd];
      [|congruence].
    destruct (Encode s f value w1) as [err w2] eqn:EE.
    destruct (Files.Close f w2) as [err1 w3] eqn:EC.
    destruct err as [e|], err1 as [e1|]; cbn [fst snd]; try congruence.
    intros _. exists f, w1, w2, w3. now rewrite EE, EC.
Qed.

(** After a successful [Put] the name is in the index, which stays
    sorted; if the name was there already the index is the same. *)
Lemma Put_success_index s key value w s' w' :
  let name := Url.PathEscape key ++ ext s in
  TotalOrder (comparator s) ->
  sorted_by (comparator s) (index s) ->
  Put s key value w = ((None, s'), w') ->
  same_config s s' /\
  sorted_by (comparator s) (index s') /\
  name ∈ index s' /\
  (name ∈ index s -> index s' = index s).
Proof.
  intros name Htot Hs E.
  pose proof (Put_config s key value w) as Hc.
  pose proof (Put_sorted s key value w Htot Hs) as Hs'.
  rewrite E in Hc, Hs'. cbn [fst snd] in Hc, Hs'.
  split; [assumption|]. split; [assumption|].
  apply Put_success in E as [_ ->]. fold name.
  pose proof (Find_sorted (comparator s) Htot (index s) Hs name) as HF.
  unfold find_cmp.
  destruct (GoSort.Find _ _) as [i ok]. destruct HF as (_ & _ & _ & Hok & _).
  destruct ok; cbn [negb].
  - split; [now apply Hok | reflexivity].
  - split.
    + cbn [index set_index]. rewrite elem_of_app. right. now left.
    + intros Hin. apply Hok in Hin. discriminate.
Qed.

(** *** [Get] *)

(** In a world without injected faults, [Get] of a name that is in the
    sorted index and whose file is there decodes that file. *)
Lemma Get_found s key w (data : bytes) :
  let name := Url.PathEscape key ++ ext s in
  let path := Filepath.Join (dir s) name in
  TotalOrder (comparator s) ->
  sorted_by (comparator s) (index s) ->
  name ∈ index s ->
  quiet w ->
  fs w !! path = Some (Regular data) ->
  fst (Get s key w) = decoder s (Files.mkReader data None).
Proof.
  intros name path Htot Hs Hin Hq Hfile. unfold Get. fold name. fold path.
  pose proof (Find_sorted (comparator s) Htot (index s) Hs name) as HF.
  unfold find_cmp.
  destruct (GoSort.Find _ _) as [i ok]. destruct HF as (_ & _ & _ & Hok & _).
  apply Hok in Hin. subst ok. cbn [negb].
  unfold Files.OpenFileReader, Files.lookup_path, Files.reader, Files.Close.
  io_unfold.
  pose proof (fault_quiet w Hq) as [E1 Hq1]. pose proof (fault_fs w) as F1.
  destruct (Files.fault w) as [e1 w1]. cbn [fst snd] in *. subst e1.
  rewrite F1, Hfile.
  pose proof (fault_quiet w1 Hq1) as [E2 Hq2].
  destruct (Files.fault w1) as [e2 w2]. cbn [fst snd] in *. subst e2.
  cbn [Files.f_node].
  destruct (decoder s (Files.mkReader data None)) as [v err].
  now destruct (Files.fault w2).
Qed.

(** C6 (round trip).  Let the comparator be a valid total order, the
    index sorted, and the decoder a left inverse of the encoder up to
    the codec's equivalence [R].  After [Put(k, v)] has returned [nil],
    [Get(k)], run on the file system that [Put] left and without an
    injected fault, returns [nil] and a value equivalent to [v]. *)
Theorem Put_Get_roundtrip (R : T -> T -> Prop) s key value w s' w' :
  TotalOrder (comparator s) ->
  sorted_by (comparator s) (index s) ->
  codec_inverse R (encoder s) (decoder s) ->
  Put s key value w = ((None, s'), w') ->
  quiet w' ->
  exists value', fst (Get s' key w') = (value', None) /\ R value' value.
Proof.
  intros Htot Hs Hcodec E Hq.
  pose proof (Put_success_index s key value w s' w' Htot Hs E)
    as ((Hd & He & Hc & Hen & Hde) & Hs' & Hin & _).
  apply Put_success in E as [(data & Henc & Hfile) _].
  destruct (Hcodec value data Henc) as (value' & Hdec & HR).
  exists value'. split; [|assumption].
  rewrite (Get_found s' key w' data).
  - now rewrite Hde.
  - now rewrite Hc.
  - now rewrite Hc.
  - now rewrite He.
  - assumption.
  - now rewrite Hd, He.
Qed.

(** C10 (overwrite).  Under the same assumptions, when [Put(k, v1)] and
    then [Put(k, v2)] both return [nil], the second leaves the index as
    the first left it, so its length is unchanged and no name is
    duplicated, and [Get(k)], run without an injected fault, then
    returns a value equivalent to [v2]. *)
Theorem Put_overwrite (R : T -> T -> Prop) s key (v1 v2 : T) w s1 w1 s2 w2 :
  TotalOrder (comparator s) ->
  sorted_by (comparator s) (index s) ->
  codec_inverse R (encoder s) (decoder s) ->
  Put s key v1 w = ((None, s1), w1) ->
  Put s1 key v2 w1 = ((None, s2), w2) ->
  index s2 = index s1 /\
  length (index s2) = length (index s1) /\
  (quiet w2 -> exists value', fst (Get s2 key w2) = (value', None) /\ R value' v2).
Proof.
  intros Htot Hs Hcodec E1 E2.
  pose proof (Put_success_index s key v1 w s1 w1 Htot Hs E1)
    as ((Hd & He & Hc & Hen & Hde) & Hs1 & Hin1 & _).
  assert (Htot1 : TotalOrder (comparator s1)) by now rewrite Hc.
  assert (Hsorted1 : sorted_by (comparator s1) (index s1)) by now rewrite Hc.
  pose proof (Put_success_index s1 key v2 w1 s2 w2 Htot1 Hsorted1 E2)
    as (_ & _ & _ & Hsame).
  rewrite He in Hsame. specialize (Hsame Hin1).
  split; [assumption|]. split; [now rewrite Hsame|].
  intros Hq.
  pose proof (Put_success_index s1 key v2 w1 s2 w2 Htot1 Hsorted1 E2)
    as ((Hd2 & He2 & Hc2 & _ & Hde2) & Hs2 & Hin2 & _).
  apply Put_success in E2 as [(data & Henc & Hfile) _].
  rewrite Hen in Henc.
  destruct (Hcodec v2 data Henc) as (value' & Hdec & HR).
  exists value'. split; [|assumption].
  rewrite (Get_found s2 key w2 data).
  - now rewrite Hde2, Hde.
  - now rewrite Hc2.
  - now rewrite Hc2.
  - now rewrite He2.
  - assumption.
  - now rewrite Hd2, He2.
Qed.

(** *** [Delete] *)

(** A name that is not in the index is not found, whatever the order of
    the index: a match of [sort.Find] is an index entry that compares
    equal to the name. *)
Lemma Find_absent (cmp : string -> string -> Z) (idx : list string) name :
  (forall a b, cmp a b = 0 -> a = b) ->
  name ∉ idx ->
  snd (GoSort.Find (length idx) (fun i => cmp name (nth i idx ""))) = false.
Proof.
  intros Heq Hnot. unfold GoSort.Find. cbn [snd].
  apply not_true_is_false. intros H.
  apply andb_true_iff in H as [Hlt Hc].
  apply Nat.ltb_lt in Hlt. apply Z.eqb_eq, Heq in Hc.
  apply Hnot. rewrite Hc at 1.
  destruct (lookup_lt_is_Some_2 idx _ Hlt) as [x Hx].
  rewrite (nth_lookup_Some _ _ "" _ Hx). eapply list_elem_of_lookup_2, Hx.
Qed.

Lemma Delete_not_found s key w :
  snd (GoSort.Find (length (index s))
         (find_cmp s (Url.PathEscape key ++ ext s))) = false ->
  Delete s key w = ((None, s), w).
Proof.
  intros E. unfold Delete.
  destruct (GoSort.Find _ _) as [i ok]. cbn [snd] in E. now subst ok.
Qed.

(** C8 (idempotent delete).  Let the comparator be a valid total order.
    For a key whose filename is not in the index, [Delete] returns [nil]
    and leaves the store and the world as they were; hence a second
    [Delete] of the key right after the first returns [nil] as well and
    ends in the same state as the first alone. *)
Theorem Delete_absent_idempotent s key w :
  TotalOrder (comparator s) ->
  (Url.PathEscape key ++ ext s) ∉ index s ->
  Delete s key w = ((None, s), w) /\
  (let '((_, s1), w1) := Delete s key w in Delete s1 key w1) = Delete s key w.
Proof.
  intros Htot Hnot.
  assert (E : Delete s key w = ((None, s), w)).
  { apply Delete_not_found. unfold find_cmp.
    apply Find_absent; [apply (cmp_eq _ Htot) | assumption]. }
  split; [assumption|]. now rewrite E.
Qed.

(** C7 (failed delete).  Let the comparator be a valid total order and
    the index sorted.  When the key's filename is in the index and
    [files.Remove] fails, [Delete] returns that error and the store is
    unchanged.  On every path, a [Delete] that returns an error leaves
    the store unchanged, and the index changes only when [files.Remove]
    has succeeded, in which case [Delete] returns [nil]. *)
Theorem Delete_failure_keeps_index s key w :
  let name := Url.PathEscape key ++ ext s in
  let path := Filepath.Join (dir s) name in
  TotalOrder (comparator s) ->
  sorted_by (comparator s) (index s) ->
  (forall e w1,
     name ∈ index s -> Files.Remove path w = (Some e, w1) ->
     Delete s key w = ((Some e, s), w1)) /\
  (forall e, fst (fst (Delete s key w)) = Some e -> snd (fst (Delete s key w)) = s) /\
  (index (snd (fst (Delete s key w))) <> index s ->
   fst (Files.Remove path w) = None /\ fst (fst (Delete s key w)) = None).
Proof.
  intros name path Htot Hs. unfold Delete. fold name. fold path.
  pose proof (Find_sorted (comparator s) Htot (index s) Hs name) as HF.
  unfold find_cmp.
  destruct (GoSort.Find _ _) as [i ok]. destruct HF as (_ & _ & _ & Hok & _).
  io_unfold. split; [|split].
  - intros e w1 Hin ER. apply Hok in Hin. subst ok. cbn [negb]. now rewrite ER.
  - intros e. destruct ok; cbn [negb fst snd]; [|congruence].
    destruct (Files.Remove path w) as [[e0|] w1]; cbn [fst snd]; [congruence|].
    destruct (Files.MustIsEmptyDir path w1) as [[|] w2];
      [destruct (Files.Remove path w2)|]; cbn [fst snd]; congruence.
  - destruct ok; cbn [negb fst snd]; [|congruence].
    destruct (Files.Remove path w) as [[e0|] w1]; cbn [fst snd]; [congruence|].
    intros _. split; [reflexivity|].
    destruct (Files.MustIsEmptyDir path w1) as [[|] w2];
      [destruct (Files.Remove path w2)|]; reflexivity.
Qed.

(** After a successful [Delete] from a sorted index without duplicates
    the name is gone, so the next [Delete] of the key finds nothing: it
    returns [nil] and changes neither the store nor the world. *)
Theorem Delete_twice_after_success s key w s1 w1 :
  TotalOrder (comparator s) ->
  sorted_by (comparator s) (index s) ->
  NoDup (index s) ->
  Delete s key w = ((None, s1), w1) ->
  Delete s1 key w1 = ((None, s1), w1).
Proof.
  intros Htot Hs Hnd E.
  pose proof (Delete_config s key w) as (_ & He & Hc & _).
  rewrite E in He, Hc. cbn [fst snd] in He, Hc.
  apply Delete_not_found. unfold find_cmp. rewrite He, Hc.
  apply Find_absent; [apply (cmp_eq _ Htot)|].
  revert E. unfold Delete.
  pose proof (Find_sorted (comparator s) Htot (index s) Hs
                (Url.PathEscape key ++ ext s)) as HF.
  unfold find_cmp.
  destruct (GoSort.Find _ _) as [i ok]. destruct HF as (_ & _ & _ & Hok & Hat).
  io_unfold. destruct ok; cbn [negb].
  - specialize (Hat eq_refl).
    destruct (Files.Remove _ w) as [[e0|] w0]; [discriminate|].
    destruct (Files.MustIsEmptyDir _ w0) as [[|] w2];
      [destruct (Files.Remove _ w2)|]; intros E; injection E as <- <-;
      cbn [index set_index]; intros Hin;
      rewrite <- (take_drop_middle _ _ _ Hat) in Hnd;
      apply NoDup_app in Hnd as (_ & Hdis & Hnd);
      apply NoDup_cons in Hnd as [Hnot _];
      replace (i + 1)%nat with (S i) in Hin by lia;
      apply elem_of_app in Hin as [Hin|Hin];
      try (now apply Hnot); apply (Hdis _ Hin); now left.
  - intros E. injection E as <- <-. intros Hin. apply Hok in Hin. discriminate.
Qed.

(** A successful [Put] of a key whose filename is not yet in the sorted
    index adds exactly that name: the index grows by one. *)
Theorem Put_new_key_length s key value w s' w' :
  TotalOrder (comparator s) ->
  sorted_by (comparator s) (index s) ->
  (Url.PathEscape key ++ ext s) ∉ index s ->
  Put s key value w = ((None, s'), w') ->
  length (index s') = S (length (index s)) /\
  index s' ≡ₚ (Url.PathEscape key ++ ext s) :: index s.
Proof.
  intros Htot Hs Hnot E. apply Put_success in E as [_ ->].
  pose proof (Find_sorted (comparator s) Htot (index s) Hs
                (Url.PathEscape key ++ ext s)) as HF.
  unfold find_cmp.
  destruct (GoSort.Find _ _) as [i ok]. destruct HF as (_ & _ & _ & Hok & _).
  destruct ok; [exfalso; now apply Hnot, Hok|]. cbn [negb index set_index].
  assert (HP : (take i (index s) ++ [(Url.PathEscape key ++ ext s)%string]
                  ++ drop i (index s))%list
               ≡ₚ (Url.PathEscape key ++ ext s) :: index s).
  { rewrite <- (take_drop i (index s)) at 3. simpl.
    symmetry. apply Permutation_middle. }
  split; [|exact HP]. now rewrite HP.
Qed.

(** [Get] of a key whose filename is not in the index reports
    [ErrNotExist] and does not touch the world. *)
Theorem Get_absent s key w :
  TotalOrder (comparator s) ->
  (Url.PathEscape key ++ ext s) ∉ index s ->
  Get s key w = ((inhabitant, Some ErrNotExist), w).
Proof.
  intros Htot Hnot. unfold Get.
  pose proof (Find_absent (comparator s) (index s) _ (cmp_eq _ Htot) Hnot) as E.
  unfold find_cmp. destruct (GoSort.Find _ _) as [i ok]. cbn [snd] in E. now subst ok.
Qed.

End StoreProperties.

(** ** The properties at concrete stores *)
Section Concrete.

Import LocalStore.

Example put_k_state :
  Demo.put_k.1.1 = None /\
  index Demo.put_k.1.2 = ["k.dat"] /\
  fs Demo.put_k.2 !! "data/k.dat" = Some (Regular Demo.hello).
Proof. vm_compute. repeat split. Qed.

Example put_abc_index : index Demo.put_abc.1 = ["a.dat"; "b.dat"; "c.dat"].
Proof. vm_compute. reflexivity. Qed.

(** C1: a new store has an empty index; [List(0, 1)] panics. *)
Lemma List_past_total_panics_new_store :
  exists msg,
    List (Demo.store "data" None) 0 1 Demo.world0 = (Panic msg, Demo.world0) /\
    (1 <= slice_max_cap -> msg = "index out of range").
Proof. apply List_past_total_panics; simpl; lia. Defined.

Example List_new_store_panics :
  List (Demo.store "data" None) 0 1 Demo.world0 =
  (Panic "index out of range", Demo.world0).
Proof. vm_compute. reflexivity. Qed.




(** C4, at the failing configuration.  With the extension [.tar.gz],
    [Put("k", v)] writes [k.tar.gz] and indexes it; the directory
    listing shows the file; its [filepath.Ext] is [.gz]; and [Load]
    leaves the index empty. *)
Theorem Load_drops_two_dot_extension :
  let s1 := Demo.put_tar_gz.1.2 in
  let w1 := Demo.put_tar_gz.2 in
  Demo.put_tar_gz.1.1 = None /\
  index s1 = ["k.tar.gz"] /\
  fst (Files.MustReadDirnames (dir s1) w1) = ["k.tar.gz"] /\
  Filepath.Ext "k.tar.gz" = ".gz" /\
  Load s1 w1 = ((None, set_index s1 []), w1).
Proof. vm_compute. repeat split. Qed.

(** C5 on a run that mixes the three calls. *)
Lemma index_sorted_after_calls_demo :
  sorted_by GoStrings.Compare
    (index (fst (run [CPut "b" Demo.hello; CLoad; CDelete "b";
                      CPut "c" Demo.world; CPut "a" Demo.hello]
                     (Demo.store "data" None) Demo.world0))).
Proof.
  apply (index_sorted_after_calls Demo.raw_Encode Demo.raw_Decode "data" None).
  exact Compare_TotalOrder.
Defined.

Lemma raw_codec_inverse : codec_inverse eq Demo.raw_Encode Demo.raw_Decode.
Proof.
  intros value data E. injection E as <-. exists value. split; reflexivity.
Qed.

(** C6 on the default store. *)
Lemma Put_Get_roundtrip_demo :
  Demo.put_k.1.1 = None /\
  exists value', fst (Get Demo.put_k.1.2 "k" Demo.put_k.2) = (value', None) /\
                 value' = Demo.hello.
Proof.
  split; [vm_compute; reflexivity|].
  apply (Put_Get_roundtrip eq (Demo.store "data" None) "k" Demo.hello Demo.world0).
  - exact Compare_TotalOrder.
  - constructor.
  - exact raw_codec_inverse.
  - vm_compute. reflexivity.
  - vm_compute. constructor.
Defined.

(** C7: the file of [k] cannot be removed. *)
Lemma Delete_failure_keeps_index_demo :
  let s1 := Demo.put_k.1.2 in
  let w := mkWorld (fs Demo.put_k.2) [Some (ErrIO "permission denied")] in
  Delete s1 "k" w =
  ((Some (ErrIO "permission denied"), s1), mkWorld (fs Demo.put_k.2) []).
Proof.
  intros s1 w.
  apply (proj1 (Delete_failure_keeps_index s1 "k" w
                  Compare_TotalOrder
                  ltac:(vm_compute; repeat constructor))).
  - vm_compute. left.
  - vm_compute. reflexivity.
Defined.

(** C8 on a new store. *)
Lemma Delete_absent_idempotent_demo :
  let s := Demo.store "data" None in
  Delete s "k" Demo.world0 = ((None, s), Demo.world0) /\
  (let '((_, s1), w1) := Delete s "k" Demo.world0 in Delete s1 "k" w1)
  = Delete s "k" Demo.world0.
Proof.
  apply (Delete_absent_idempotent (Demo.store "data" None) "k" Demo.world0).
  - exact Compare_TotalOrder.
  - vm_compute. intros H. inversion H.
Defined.

(** C9: the write and the close both fail; the write error is returned
    and the store is unchanged. *)
Lemma Put_error_priority_demo :
  let s := Demo.store "data" None in
  let w := mkWorld ∅ [None; Some (ErrIO "disk full"); Some (ErrIO "close failed")] in
  fst (Put s "k" Demo.hello w) = (Some (ErrIO "disk full"), s).
Proof.
  intros s w.
  pose proof (proj1 (proj2 (Put_error_priority s "k" Demo.hello w))) as H.
  cbv zeta in H.
  rewrite (H (Files.mkFile "data/k.dat" (Regular []))
             (mkWorld (<["data/k.dat" := Regular []]> ∅)
                      [Some (ErrIO "disk full"); Some (ErrIO "close failed")])
             (ErrIO "disk full")
             (mkWorld (<["data/k.dat" := Regular []]> ∅)
                      [Some (ErrIO "close failed")])).
  - reflexivity.
  - vm_compute. reflexivity.
  - vm_compute. reflexivity.
Defined.

(** C10: the key [k] is put twice. *)
Lemma Put_overwrite_demo :
  let r2 := Put Demo.put_k.1.2 "k" Demo.world Demo.put_k.2 in
  r2.1.1 = None /\
  index r2.1.2 = index Demo.put_k.1.2 /\
  length (index r2.1.2) = length (index Demo.put_k.1.2) /\
  exists value', fst (Get r2.1.2 "k" r2.2) = (value', None) /\ value' = Demo.world.
Proof.
  intros r2. split; [vm_compute; reflexivity|].
  destruct (Put_overwrite eq (Demo.store "data" None) "k" Demo.hello Demo.world
              Demo.world0 Demo.put_k.1.2 Demo.put_k.2 r2.1.2 r2.2)
    as (H1 & H2 & H3).
  - exact Compare_TotalOrder.
  - constructor.
  - exact raw_codec_inverse.
  - vm_compute. reflexivity.
  - vm_compute. reflexivity.
  - split; [exact H1|]. split; [exact H2|]. apply H3. vm_compute. constructor.
Defined.

(** The further properties at concrete stores. *)
Lemma Load_index_simple_ext_demo :
  "k.dat" ∈ index (snd (fst (Load Demo.put_k.1.2 Demo.put_k.2))) <->
  "k.dat" ∈ fst (Files.MustReadDirnames "data" Demo.put_k.2) /\
  exists stem, "k.dat" = stem ++ ".dat".
Proof.
  apply (Load_index_simple_ext Demo.put_k.1.2 Demo.put_k.2 "k.dat").
  vm_compute. reflexivity.
Defined.

Lemma List_past_total_empty_demo :
  List Demo.put_abc.1 3 (-1) Demo.put_abc.2 =
  (Return (mkList [] 3 (-1) 3, None), Demo.put_abc.2).
Proof.
  apply (List_past_total_empty Demo.put_abc.1 3 (-1) Demo.put_abc.2).
  - vm_compute. intros E; discriminate E.
  - left. lia.
  - vm_compute. intros E; discriminate E.
Defined.

Lemma Delete_twice_after_success_demo :
  let r1 := Delete Demo.put_k.1.2 "k" Demo.put_k.2 in
  r1.1.1 = None /\ Delete r1.1.2 "k" r1.2 = ((None, r1.1.2), r1.2).
Proof.
  intros r1. split; [vm_compute; reflexivity|].
  apply (Delete_twice_after_success Demo.put_k.1.2 "k" Demo.put_k.2).
  - exact Compare_TotalOrder.
  - vm_compute. repeat constructor.
  - vm_compute. repeat constructor. intros H. inversion H.
  - vm_compute. reflexivity.
Defined.

Lemma Put_new_key_length_demo :
  length (index Demo.put_k.1.2) = 1%nat /\ index Demo.put_k.1.2 ≡ₚ ["k.dat"].
Proof.
  apply (Put_new_key_length (Demo.store "data" None) "k" Demo.hello Demo.world0
           Demo.put_k.1.2 Demo.put_k.2).
  - exact Compare_TotalOrder.
  - constructor.
  - vm_compute. intros H. inversion H.
  - vm_compute. reflexivity.
Defined.

Lemma Get_absent_demo :
  Get Demo.put_k.1.2 "other" Demo.put_k.2 = (([], Some ErrNotExist), Demo.put_k.2).
Proof.
  assert (Hnot : "other.dat" ∉ index Demo.put_k.1.2).
  { vm_compute. intros H. inversion H as [|? ? ? H']. inversion H'. }
  exact (Get_absent Demo.put_k.1.2 "other" Demo.put_k.2 Compare_TotalOrder Hnot).
Defined.

End Concrete.

(** * Further properties of the code *)

(** ** [sort.Find] with an arbitrary probe *)
Section FindBounds.

Lemma Find_loop_bounds (fuel : nat) (c : nat -> Z) (i j : nat) :
  (i <= j)%nat ->
  (i <= GoSort.Find_loop fuel c i j)%nat /\ (GoSort.Find_loop fuel c i j <= j)%nat.
Proof.
  revert i j. induction fuel as [|fuel IH]; intros i j Hij; cbn [GoSort.Find_loop].
  - lia.
  - destruct (Nat.ltb_spec i j) as [Hlt|Hge]; [|lia].
    pose proof (midpoint_bounds i j Hlt) as [Hm1 Hm2].
    destruct (0 <? c ((i + j) / 2)%nat).
    + destruct (IH ((i + j) / 2 + 1)%nat j); lia.
    + destruct (IH i ((i + j) / 2)%nat); lia.
Qed.

End FindBounds.

(** ** [url.PathEscape] *)
Section PathEscape.

Lemma upperhex_in (n : nat) :
  In (Url.upperhex n) (list_ascii_of_string "0123456789ABCDEF").
Proof.
  unfold Url.upperhex.
  destruct (nth_in_or_default n (list_ascii_of_string "0123456789ABCDEF") "0"%char)
    as [H|H]; [exact H|].
  rewrite H. now left.
Qed.

Lemma upperhex_not_separator (n : nat) : Url.upperhex n <> "/"%char.
Proof.
  intros E. pose proof (upperhex_in n) as H. rewrite E in H.
  cbn in H. repeat (destruct H as [H|H]; [discriminate H|]). exact H.
Qed.

Lemma upperhex_inj (a b : nat) :
  (a < 16)%nat -> (b < 16)%nat -> Url.upperhex a = Url.upperhex b -> a = b.
Proof.
  intros Ha Hb.
  do 16 (destruct a as [|a];
         [do 16 (destruct b as [|b];
                 [cbv; intros E; first [reflexivity | discriminate E]|]); lia|]).
  lia.
Qed.

Lemma nat_of_ascii_bound (c : ascii) : (nat_of_ascii c < 256)%nat.
Proof. destruct c as [[] [] [] [] [] [] [] []]; vm_compute; lia. Qed.

Lemma hex_digits_inj (c1 c2 : ascii) :
  Url.upperhex (nat_of_ascii c1 / 16) = Url.upperhex (nat_of_ascii c2 / 16) ->
  Url.upperhex (nat_of_ascii c1 mod 16) = Url.upperhex (nat_of_ascii c2 mod 16) ->
  c1 = c2.
Proof.
  intros Hhi Hlo.
  pose proof (nat_of_ascii_bound c1) as B1. pose proof (nat_of_ascii_bound c2) as B2.
  apply upperhex_inj in Hhi;
    [|apply Nat.Div0.div_lt_upper_bound; lia|apply Nat.Div0.div_lt_upper_bound; lia].
  apply upperhex_inj in Hlo; [|apply Nat.mod_upper_bound; lia..].
  apply nat_of_ascii_inj.
  rewrite (Nat.div_mod_eq (nat_of_ascii c1) 16), (Nat.div_mod_eq (nat_of_ascii c2) 16).
  now rewrite Hhi, Hlo.
Qed.

Lemma escape_inj (k1 k2 : string) : Url.escape k1 = Url.escape k2 -> k1 = k2.
Proof.
  revert k2. induction k1 as [|c1 k1 IH]; intros [|c2 k2]; cbn [Url.escape].
  - reflexivity.
  - destruct (Url.shouldEscape c2); discriminate.
  - destruct (Url.shouldEscape c1); discriminate.
  - destruct (Url.shouldEscape c1) eqn:E1, (Url.shouldEscape c2) eqn:E2; intros E.
    + injection E as Hhi Hlo E. f_equal; [now apply hex_digits_inj | now apply IH].
    + injection E as Hc _. subst c2. vm_compute in E2. discriminate E2.
    + injection E as Hc _. subst c1. vm_compute in E1. discriminate E1.
    + injection E as Hc E. subst c2. f_equal. now apply IH.
Qed.

Lemma append_inv_tail (a b e : string) : a ++ e = b ++ e -> a = b.
Proof.
  intros E. apply (f_equal list_ascii_of_string) in E.
  rewrite !list_ascii_of_string_app in E. apply app_inv_tail in E.
  rewrite <- (string_of_list_ascii_of_string a), <- (string_of_list_ascii_of_string b).
  now rewrite E.
Qed.

(** No path separator survives the escaping of a key: the escaped key is
    a single path element. *)
Theorem PathEscape_no_separator (key : string) :
  Forall (fun c => c <> "/"%char) (list_ascii_of_string (Url.PathEscape key)).
Proof.
  unfold Url.PathEscape. induction key as [|c key IH]; cbn [Url.escape]; [constructor|].
  destruct (Url.shouldEscape c) eqn:E; cbn [list_ascii_of_string].
  - repeat (constructor; [first [discriminate | apply upperhex_not_separator]|]).
    exact IH.
  - constructor; [|exact IH]. intros ->. vm_compute in E. discriminate E.
Qed.

(** Distinct keys get distinct file names, whatever the extension. *)
Theorem filename_injective (e k1 k2 : string) :
  k1 <> k2 -> Url.PathEscape k1 ++ e <> Url.PathEscape k2 ++ e.
Proof.
  intros Hne E. apply Hne, escape_inj. now apply append_inv_tail in E.
Qed.

End PathEscape.

(** ** Frames, invariants and compositions of the store's calls *)
Section StoreFrames.

Import LocalStore.

Context {T : Type} `{!Inhabited T} `{!SliceLimit T}.
Implicit Types (s : @t T) (w : World) (key name : string) (value : T).

Ltac io_open := unfold bind, ret in *; cbn beta iota in *.

(** The two shapes of the index after [Put]. *)
Lemma Put_index_cases s key value w :
  let name := Url.PathEscape key ++ ext s in
  let s' := snd (fst (Put s key value w)) in
  index s' = index s \/
  exists i, index s' = (take i (index s) ++ [name] ++ drop i (index s))%list.
Proof.
  intros name. unfold Put. fold name. io_open.
  destruct (Files.OpenFileWriter _ w) as [[f|e] w1]; cbn [fst snd]; [|now left].
  destruct (Encode s f value w1) as [err w2].
  destruct (Files.Close f w2) as [err1 w3].
  destruct err as [e|], err1 as [e1|]; cbn [fst snd]; try (now left).
  destruct (GoSort.Find _ _) as [i ok].
  destruct ok; cbn [negb fst snd]; [now left|]. right. now exists i.
Qed.

(** The two shapes of the index after [Delete]: the entry cut out
    compares equal to the key's file name. *)
Lemma Delete_index_cases s key w :
  let name := Url.PathEscape key ++ ext s in
  let s' := snd (fst (Delete s key w)) in
  index s' = index s \/
  exists i x, index s !! i = Some x /\ comparator s name x = 0 /\
              index s' = (take i (index s) ++ drop (S i) (index s))%list.
Proof.
  intros name. unfold Delete. fold name.
  pose proof (Find_loop_bounds (length (index s)) (find_cmp s name) 0
                (length (index s)) ltac:(lia)) as _.
  unfold GoSort.Find.
  set (i := GoSort.Find_loop _ _ _ _).
  destruct ((i <? length (index s))%nat && (find_cmp s name i =? 0)) eqn:Eok;
    cbn [negb]; [|now left].
  apply andb_true_iff in Eok as [Hlt Hc].
  apply Nat.ltb_lt in Hlt. apply Z.eqb_eq in Hc. unfold find_cmp in Hc.
  destruct (lookup_lt_is_Some_2 _ _ Hlt) as [x Hx].
  rewrite (nth_lookup_Some _ _ "" _ Hx) in Hc.
  io_open.
  destruct (Files.Remove _ w) as [[e|] w1]; cbn [fst snd]; [now left|].
  right. exists i, x. split; [exact Hx|]. split; [exact Hc|].
  replace (S i) with (i + 1)%nat by lia.
  destruct (Files.MustIsEmptyDir _ w1) as [[|] w2];
    [destruct (Files.Remove _ w2)|]; reflexivity.
Qed.

(** For every comparator, valid or not, the position that [sort.Find]
    returns is at most the index length, and below it when a match is
    reported: the slice expressions [s.index[:i]] and [s.index[i:]] of
    [Put] and [s.index[i+1:]] of [Delete] are always in range. *)
Theorem Find_position_in_range s name :
  let (i, ok) := GoSort.Find (length (index s)) (find_cmp s name) in
  (i <= length (index s))%nat /\
  (ok = true -> (i < length (index s))%nat /\
                comparator s name (nth i (index s) "") = 0).
Proof.
  unfold GoSort.Find.
  pose proof (Find_loop_bounds (length (index s)) (find_cmp s name) 0
                (length (index s)) ltac:(lia)) as [_ Hle].
  split; [exact Hle|].
  intros H. apply andb_true_iff in H as [Hlt Hc].
  apply Nat.ltb_lt in Hlt. apply Z.eqb_eq in Hc. now split.
Qed.

(** On a sorted index and with a comparator that is a valid total order
    the binary search reports a match exactly for the names that are in
    the index, at a position that holds the name. *)
Theorem index_lookup_correct s name :
  TotalOrder (comparator s) ->
  sorted_by (comparator s) (index s) ->
  let (i, ok) := GoSort.Find (length (index s)) (find_cmp s name) in
  (ok = true <-> name ∈ index s) /\ (ok = true -> index s !! i = Some name).
Proof.
  intros Htot Hs.
  pose proof (Find_sorted (comparator s) Htot (index s) Hs name) as HF.
  unfold find_cmp. destruct (GoSort.Find _ _) as [i ok].
  destruct HF as (_ & _ & _ & Hok & Hat). now split.
Qed.

(** [Put] never drops a name from the index, and the only name it can
    add is the file name of its key: whatever its outcome, the other
    names are in the index after the call exactly when they were
    before. *)
Theorem Put_index_frame s key value w :
  let name := Url.PathEscape key ++ ext s in
  let s' := snd (fst (Put s key value w)) in
  (forall x, x ∈ index s -> x ∈ index s') /\
  (forall x, x ∈ index s' -> x ∈ index s \/ x = name).
Proof.
  intros name s'. destruct (Put_index_cases s key value w) as [E|[i E]];
    fold name in E; fold s' in E; rewrite E.
  - split; auto.
  - split; intros x Hx.
    + rewrite <- (take_drop i (index s)) in Hx.
      rewrite !elem_of_app in *. destruct Hx; auto.
    + rewrite !elem_of_app, list_elem_of_singleton in Hx.
      destruct Hx as [Hx|[Hx|Hx]]; auto; left.
      * eapply subseteq_take, Hx.
      * eapply subseteq_drop, Hx.
Qed.

(** [Delete] never adds a name to the index, and with a comparator that
    is a valid total order the only name it can take out is the file
    name of its key. *)
Theorem Delete_index_frame s key w :
  let name := Url.PathEscape key ++ ext s in
  let s' := snd (fst (Delete s key w)) in
  TotalOrder (comparator s) ->
  (forall x, x ∈ index s' -> x ∈ index s) /\
  (forall x, x ∈ index s -> x <> name -> x ∈ index s').
Proof.
  intros name s' Htot.
  destruct (Delete_index_cases s key w) as [E|(i & y & Hy & Hc & E)];
    fold name in Hc || idtac; fold s' in E; rewrite E.
  - split; auto.
  - apply (cmp_eq _ Htot) in Hc. subst y. split; intros x Hx.
    + apply elem_of_app in Hx as [Hx|Hx].
      * eapply subseteq_take, Hx.
      * eapply subseteq_drop, Hx.
    + intros Hne. rewrite <- (take_drop_middle _ _ _ Hy) in Hx.
      rewrite elem_of_app, elem_of_cons in Hx. rewrite elem_of_app.
      destruct Hx as [Hx|[Hx|Hx]]; auto. now subst x.
Qed.

(** *** The index never holds a name twice *)

Lemma Put_NoDup s key value w :
  TotalOrder (comparator s) ->
  sorted_by (comparator s) (index s) ->
  NoDup (index s) ->
  NoDup (index (snd (fst (Put s key value w)))).
Proof.
  intros Htot Hs Hnd. unfold Put. io_open.
  pose proof (Find_sorted (comparator s) Htot (index s) Hs
                (Url.PathEscape key ++ ext s)) as HF.
  unfold find_cmp.
  destruct (GoSort.Find _ _) as [i ok]. destruct HF as (_ & _ & _ & Hok & _).
  destruct (Files.OpenFileWriter _ w) as [[f|e] w1]; cbn [fst snd]; [|assumption].
  destruct (Encode s f value w1) as [err w2].
  destruct (Files.Close f w2) as [err1 w3].
  destruct err as [e|], err1 as [e1|]; cbn [fst snd]; try assumption.
  destruct ok; cbn [negb fst snd index set_index]; [assumption|].
  assert (Hnot : (Url.PathEscape key ++ ext s) ∉ index s).
  { intros Hin. apply Hok in Hin. discriminate. }
  rewrite <- (take_drop i (index s)) in Hnd, Hnot.
  apply NoDup_app in Hnd as (H1 & H2 & H3).
  apply NoDup_app. split; [assumption|]. split.
  - intros x Hx Hx'. apply elem_of_cons in Hx' as [->|Hx'].
    + apply Hnot, elem_of_app. now left.
    + now apply (H2 x).
  - apply NoDup_cons. split; [|assumption].
    intros Hin. apply Hnot, elem_of_app. now right.
Qed.

Lemma Delete_NoDup s key w :
  NoDup (index s) -> NoDup (index (snd (fst (Delete s key w)))).
Proof.
  intros Hnd. destruct (Delete_index_cases s key w) as [E|(i & y & Hy & _ & E)];
    rewrite E; [assumption|].
  rewrite <- (take_drop_middle _ _ _ Hy) in Hnd.
  apply NoDup_app in Hnd as (H1 & H2 & H3).
  apply NoDup_cons in H3 as [_ H3].
  apply NoDup_app. split; [assumption|]. split; [|assumption].
  intros x Hx Hx'. apply (H2 x Hx). now right.
Qed.

Lemma run_sorted_NoDup (calls : list (@call T)) s w :
  Forall (fun c => c <> CLoad) calls ->
  TotalOrder (comparator s) ->
  sorted_by (comparator s) (index s) ->
  NoDup (index s) ->
  NoDup (index (fst (run calls s w))).
Proof.
  intros Hcalls. revert s w.
  induction Hcalls as [|c calls Hc Hcalls IH]; intros s w Htot Hs Hnd; simpl.
  - assumption.
  - unfold bind. destruct (exec c s w) as [r w'] eqn:E.
    pose proof (exec_config c s w) as (_ & _ & Hcfg & _).
    pose proof (exec_sorted c s w Htot Hs) as Hs'.
    rewrite E in Hcfg, Hs'. cbn [fst snd] in Hcfg, Hs'.
    apply IH.
    + now rewrite Hcfg.
    + now rewrite Hcfg.
    + replace r with (fst (exec c s w)) by now rewrite E.
      destruct c as [|key value|key]; cbn [exec].
      * now contradiction Hc.
      * now apply Put_NoDup.
      * now apply Delete_NoDup.
Qed.

(** Starting from a newly created store whose comparator is a valid
    total order, no sequence of [Put] and [Delete] calls, failed or not,
    leaves a file name twice in the index. *)
Theorem index_NoDup_after_Put_Delete
    (gob_Encode : @Encoder T) (gob_Decode : @Decoder T)
    (d : string) (opt : option (@Options T)) (calls : list (@call T)) w :
  let s0 := New gob_Encode gob_Decode d opt in
  TotalOrder (comparator s0) ->
  Forall (fun c => c <> CLoad) calls ->
  NoDup (index (fst (run calls s0 w))).
Proof.
  intros s0 Htot Hcalls.
  assert (E : index s0 = []) by (unfold s0, New; now destruct opt).
  apply run_sorted_NoDup; try assumption; rewrite E; constructor.
Qed.

(** *** Every indexed name ends with the configured extension *)

Lemma exec_names_have_ext (c : @call T) s w :
  (forall x, x ∈ index s -> exists stem, x = stem ++ ext s) ->
  forall x, x ∈ index (snd (fst (exec c s w))) -> exists stem, x = stem ++ ext s.
Proof.
  intros Hinv x Hx. destruct c as [|key value|key]; cbn [exec] in Hx.
  - rewrite Load_index_filter, list_elem_of_In, filter_In, String.eqb_eq in Hx.
    destruct Hx as [_ <-]. apply Ext_suffix.
  - destruct (Put_index_cases s key value w) as [E|[i E]]; rewrite E in Hx.
    + now apply Hinv.
    + rewrite !elem_of_app, list_elem_of_singleton in Hx.
      destruct Hx as [Hx|[->|Hx]].
      * eapply Hinv, subseteq_take, Hx.
      * now exists (Url.PathEscape key).
      * eapply Hinv, subseteq_drop, Hx.
  - destruct (Delete_index_cases s key w) as [E|(i & y & _ & _ & E)]; rewrite E in Hx.
    + now apply Hinv.
    + apply elem_of_app in Hx as [Hx|Hx].
      * eapply Hinv, subseteq_take, Hx.
      * eapply Hinv, subseteq_drop, Hx.
Qed.

(** After any sequence of [Load], [Put] and [Delete] calls on a newly
    created store, for every extension and every comparator, each name
    in the index ends with the configured extension. *)
Theorem index_names_have_ext
    (gob_Encode : @Encoder T) (gob_Decode : @Decoder T)
    (d : string) (opt : option (@Options T)) (calls : list (@call T)) w name :
  let s0 := New gob_Encode gob_Decode d opt in
  name ∈ index (fst (run calls s0 w)) -> exists stem, name = stem ++ ext s0.
Proof.
  intros s0.
  assert (H0 : forall x, x ∈ index s0 -> exists stem, x = stem ++ ext s0).
  { unfold s0, New. destruct opt; cbn [index]; intros x Hx; inversion Hx. }
  revert H0. generalize s0. clear s0. revert w name.
  induction calls as [|c calls IH]; intros w name s Hinv; simpl.
  - apply Hinv.
  - unfold bind. destruct (exec c s w) as [r w'] eqn:E. intros Hx.
    pose proof (exec_config c s w) as (_ & Hext & _).
    pose proof (exec_names_have_ext c s w Hinv) as Hinv'.
    rewrite E in Hext, Hinv'. cbn [fst snd] in Hext, Hinv'.
    rewrite <- Hext. apply (IH w' name (snd r)); [|assumption].
    intros x Hx'. rewrite Hext. now apply Hinv'.
Qed.

(** *** [Put] and [Delete] of the same key *)

Lemma set_index_id s : set_index s (index s) = s.
Proof. now destruct s. Qed.

(** A successful [Put] of a name that is not in the sorted index. *)
Lemma Put_success_new s key value w s' w' :
  let name := Url.PathEscape key ++ ext s in
  TotalOrder (comparator s) ->
  sorted_by (comparator s) (index s) ->
  name ∉ index s ->
  Put s key value w = ((None, s'), w') ->
  exists i, (i <= length (index s))%nat /\
            s' = set_index s (take i (index s) ++ [name] ++ drop i (index s))%list.
Proof.
  intros name Htot Hs Hnot E. apply Put_success in E as [_ ->]. fold name.
  pose proof (Find_sorted (comparator s) Htot (index s) Hs name) as HF.
  unfold find_cmp.
  destruct (GoSort.Find _ _) as [i ok]. destruct HF as (Hi & _ & _ & Hok & _).
  destruct ok; [exfalso; now apply Hnot, Hok|]. cbn [negb]. now exists i.
Qed.

(** A successful [Put] of a new key followed by a successful [Delete]
    of that key gives back the store as it was before the [Put]. *)
Theorem Put_Delete_restores_store s key value w s1 w1 s2 w2 :
  TotalOrder (comparator s) ->
  sorted_by (comparator s) (index s) ->
  (Url.PathEscape key ++ ext s) ∉ index s ->
  Put s key value w = ((None, s1), w1) ->
  Delete s1 key w1 = ((None, s2), w2) ->
  s2 = s.
Proof.
  intros Htot Hs Hnot EP ED.
  pose proof (Put_sorted s key value w Htot Hs) as Hs1.
  rewrite EP in Hs1. cbn [fst snd] in Hs1.
  destruct (Put_success_new s key value w s1 w1 Htot Hs Hnot EP) as (i & Hi & ->).
  set (name := Url.PathEscape key ++ ext s) in *.
  set (idx1 := (take i (index s) ++ [name] ++ drop i (index s))%list) in *.
  assert (Hlen : length (take i (index s)) = i) by (rewrite length_take; lia).
  assert (Hname : forall j, idx1 !! j = Some name -> j = i).
  { intros j Hj. unfold idx1 in Hj.
    destruct (Nat.lt_trichotomy j i) as [Hlt|[->|Hgt]]; [|reflexivity|]; exfalso.
    - rewrite lookup_app_l in Hj by lia.
      apply Hnot. eapply subseteq_take, list_elem_of_lookup_2, Hj.
    - rewrite lookup_app_r in Hj by lia. rewrite Hlen in Hj.
      destruct (j - i)%nat as [|k] eqn:Ek; [lia|]. cbn in Hj.
      apply Hnot. eapply subseteq_drop, list_elem_of_lookup_2, Hj. }
  assert (Hin : name ∈ idx1).
  { unfold idx1. rewrite !elem_of_app, list_elem_of_singleton. auto. }
  revert ED. unfold Delete. cbn [ext dir index comparator set_index]. fold name.
  pose proof (Find_sorted (comparator s) Htot idx1 Hs1 name) as HF.
  unfold find_cmp. cbn [index comparator set_index].
  destruct (GoSort.Find _ _) as [j ok]. destruct HF as (_ & _ & _ & Hok & Hat).
  apply Hok in Hin. subst ok. cbn [negb]. io_open.
  specialize (Hat eq_refl). apply Hname in Hat. subst j.
  assert (Hcut : (take i idx1 ++ drop (i + 1) idx1)%list = index s).
  { unfold idx1. rewrite take_app_length' by (symmetry; exact Hlen).
    rewrite app_assoc.
    rewrite drop_app_length' by (rewrite length_app, Hlen; cbn; lia).
    apply take_drop. }
  destruct (Files.Remove _ w1) as [[e|] w3]; [discriminate|].
  destruct (Files.MustIsEmptyDir _ w3) as [[|] w4];
    [destruct (Files.Remove _ w4)|]; intros E; injection E as <- <-;
    rewrite Hcut; exact (set_index_id s).
Qed.

(** *** [Get] after [Delete], and [Get] of an indexed key without file *)

Lemma Delete_success_absent s key w s1 w1 :
  TotalOrder (comparator s) ->
  sorted_by (comparator s) (index s) ->
  NoDup (index s) ->
  Delete s key w = ((None, s1), w1) ->
  same_config s s1 /\ (Url.PathEscape key ++ ext s) ∉ index s1.
Proof.
  intros Htot Hs Hnd E.
  pose proof (Delete_config s key w) as Hc. rewrite E in Hc. cbn [fst snd] in Hc.
  split; [exact Hc|]. revert E. unfold Delete.
  pose proof (Find_sorted (comparator s) Htot (index s) Hs
                (Url.PathEscape key ++ ext s)) as HF.
  unfold find_cmp.
  destruct (GoSort.Find _ _) as [i ok]. destruct HF as (_ & _ & _ & Hok & Hat).
  io_open. destruct ok; cbn [negb].
  - specialize (Hat eq_refl).
    rewrite <- (take_drop_middle _ _ _ Hat) in Hnd.
    apply NoDup_app in Hnd as (_ & Hdis & Hnd).
    apply NoDup_cons in Hnd as [Hnot _].
    destruct (Files.Remove _ w) as [[e0|] w0]; [discriminate|].
    destruct (Files.MustIsEmptyDir _ w0) as [[|] w2];
      [destruct (Files.Remove _ w2)|]; intros E; injection E as <- <-;
      cbn [index set_index]; replace (i + 1)%nat with (S i) by lia;
      intros Hin; apply elem_of_app in Hin as [Hin|Hin];
      try (now apply Hnot); apply (Hdis _ Hin); now left.
  - intros E. injection E as <- <-. intros Hin. apply Hok in Hin. discriminate.
Qed.

(** After a [Delete] that returned [nil], on a sorted index without
    duplicates, [Get] of the same key reports [ErrNotExist] and does not
    touch the world. *)
Theorem Delete_then_Get_not_exist s key w s1 w1 :
  TotalOrder (comparator s) ->
  sorted_by (comparator s) (index s) ->
  NoDup (index s) ->
  Delete s key w = ((None, s1), w1) ->
  Get s1 key w1 = ((inhabitant, Some ErrNotExist), w1).
Proof.
  intros Htot Hs Hnd E.
  destruct (Delete_success_absent s key w s1 w1 Htot Hs Hnd E)
    as ((_ & He & Hc & _) & Hnot).
  unfold Get. rewrite He.
  pose proof (Find_absent (comparator s1) (index s1) (Url.PathEscape key ++ ext s))
    as HA.
  rewrite Hc in HA. specialize (HA (cmp_eq _ Htot) Hnot).
  unfold find_cmp. rewrite Hc.
  destruct (GoSort.Find _ _) as [i ok]. cbn [snd] in HA. now subst ok.
Qed.

(** The index is trusted: for a key whose file name is in the index,
    an error of opening its file is returned as it is, with the zero
    value, and not turned into [ErrNotExist]. *)
Theorem Get_open_failure s key w (e : error) w1 :
  let name := Url.PathEscape key ++ ext s in
  TotalOrder (comparator s) ->
  sorted_by (comparator s) (index s) ->
  name ∈ index s ->
  Files.OpenFileReader (Filepath.Join (dir s) name) w = (Err e, w1) ->
  Get s key w = ((inhabitant, Some e), w1).
Proof.
  intros name Htot Hs Hin EO. unfold Get. fold name.
  pose proof (Find_sorted (comparator s) Htot (index s) Hs name) as HF.
  unfold find_cmp.
  destruct (GoSort.Find _ _) as [i ok]. destruct HF as (_ & _ & _ & Hok & _).
  apply Hok in Hin. subst ok. cbn [negb]. io_open. now rewrite EO.
Qed.

(** *** A newly created store *)

(** Whatever the options, also with a comparator that is no order at
    all, a newly created store is empty: [Get] reports [ErrNotExist],
    [Delete] returns [nil] and changes nothing, and [List] with a
    negative limit returns the empty page with [Total = 0] from every
    offset that is not negative. *)
Theorem New_store_is_empty
    (gob_Encode : @Encoder T) (gob_Decode : @Decoder T)
    (d : string) (opt : option (@Options T)) key w :
  let s := New gob_Encode gob_Decode d opt in
  Get s key w = ((inhabitant, Some ErrNotExist), w) /\
  Delete s key w = ((None, s), w) /\
  (forall offset, 0 <= offset -> 0 <= slice_max_cap ->
     List s offset (-1) w = (Return (mkList [] offset (-1) 0, None), w)).
Proof.
  intros s.
  assert (E : index s = []) by (unfold s, New; now destruct opt).
  split; [|split].
  - unfold Get, GoSort.Find. rewrite E. reflexivity.
  - unfold Delete, GoSort.Find. rewrite E. reflexivity.
  - intros offset Hoff Hcap. unfold List. rewrite E.
    change (Z.of_nat (length (@nil string))) with 0. change (-1 <? 0) with true.
    cbn iota. io_open.
    destruct (Z.ltb_spec slice_max_cap 0); [lia|].
    replace (Z.to_nat (0 - offset)) with 0%nat by lia. reflexivity.
Qed.

(** A store created without a comparator option uses [strings.Compare],
    which meets the comparator contract: it is a valid total order. *)
Theorem New_default_comparator_total
    (gob_Encode : @Encoder T) (gob_Decode : @Decoder T) (d : string) :
  TotalOrder (comparator (New gob_Encode gob_Decode d None)) /\
  forall e enc dec,
    TotalOrder (comparator (New gob_Encode gob_Decode d
                              (Some (mkOptions e None enc dec)))).
Proof. split; [|intros e enc dec]; exact Compare_TotalOrder. Qed.

(** *** Failures and bounds of [List] *)

(** Whenever [List] returns an error the page is the zero page: no
    values, and offset, limit and total all zero. *)
Theorem List_error_zero_page s (offset limit : Z) w page (e : error) w' :
  List s offset limit w = (Return (page, Some e), w') ->
  page = mkList [] 0 0 0.
Proof.
  unfold List. io_open.
  destruct (slice_max_cap <? _); [discriminate|].
  destruct (List_loop s _ offset [] w) as [[[vs|err]|msg] w1]; intros E;
    try discriminate.
  now injection E as <- _ _.
Qed.

Lemma decode_entries_first_failure s (l1 l2 : list string) name w
      (vs : list T) w1 (e : error) w2 :
  decode_entries s l1 w = (Ok vs, w1) ->
  read_entry s name w1 = (Err e, w2) ->
  decode_entries s (l1 ++ name :: l2) w = (Err e, w2).
Proof.
  revert w vs. induction l1 as [|x l1 IH]; intros w vs E1 E2; cbn [decode_entries app] in *.
  - io_open. injection E1 as _ <-. now rewrite E2.
  - io_open. destruct (read_entry s x w) as [[v|err] w0]; [|discriminate].
    destruct (decode_entries s l1 w0) as [[vs0|err] w3] eqn:ED; [|discriminate].
    injection E1 as _ <-. now rewrite (IH w0 vs0 ED E2).
Qed.

(** [List] aborts at the first entry of the range that fails to open or
    decode: the entries before it have been read, the entries after it
    are not touched, and the values decoded so far are dropped. *)
Theorem List_aborts_at_first_failure s (offset limit : Z) w
        (l1 l2 : list string) name (vs : list T) w1 (e : error) w2 :
  let len := Z.of_nat (length (index s)) in
  let cap := if limit <? 0 then len else limit in
  0 <= offset -> cap <= len -> cap <= slice_max_cap ->
  slice offset cap (index s) = (l1 ++ name :: l2)%list ->
  decode_entries s l1 w = (Ok vs, w1) ->
  read_entry s name w1 = (Err e, w2) ->
  List s offset limit w = (Return (mkList [] 0 0 0, Some e), w2).
Proof.
  intros len cap Hoff Hcap Hmax Hsl E1 E2.
  assert (Hlt : offset < cap).
  { destruct (Z.lt_ge_cases offset cap) as [|Hge]; [assumption|].
    unfold slice in Hsl. replace (Z.to_nat (cap - offset)) with 0%nat in Hsl by lia.
    destruct l1; discriminate Hsl. }
  unfold List. fold len. fold cap. io_open.
  destruct (Z.ltb_spec slice_max_cap cap); [lia|].
  rewrite List_loop_in_range by lia. fold (slice offset cap (index s)).
  rewrite Hsl, (decode_entries_first_failure s l1 l2 name w vs w1 e w2 E1 E2).
  reflexivity.
Qed.

(** With a negative limit [List] never panics from an offset that is
    not negative: it returns a page or an error. *)
Theorem List_negative_limit_returns s (offset limit : Z) w :
  0 <= offset -> limit < 0 ->
  Z.of_nat (length (index s)) <= slice_max_cap ->
  exists r, fst (List s offset limit w) = Return r.
Proof.
  intros Hoff Hlim Hmax. unfold List. io_open.
  destruct (Z.ltb_spec limit 0); [|lia].
  destruct (Z.ltb_spec slice_max_cap (Z.of_nat (length (index s)))); [lia|].
  destruct (Z.le_gt_cases (Z.of_nat (length (index s))) offset) as [Hge|Hlt].
  - replace (Z.to_nat (Z.of_nat (length (index s)) - offset)) with 0%nat by lia.
    cbn. eauto.
  - rewrite List_loop_in_range by lia.
    destruct (decode_entries s _ w) as [[vs|err] w']; cbn; eauto.
Qed.

(** A negative offset below the end position makes [List] panic: the
    first iteration reads [s.index[offset]]. *)
Theorem List_negative_offset_panics s (offset limit : Z) w :
  let cap := if limit <? 0 then Z.of_nat (length (index s)) else limit in
  offset < 0 -> offset < cap -> cap <= slice_max_cap ->
  List s offset limit w = (Panic "index out of range", w).
Proof.
  intros cap Hoff Hlt Hmax. unfold List. fold cap. io_open.
  destruct (Z.ltb_spec slice_max_cap cap); [lia|].
  destruct (Z.to_nat (cap - offset)) as [|n] eqn:En; [lia|].
  cbn [List_loop]. assert (index_at s offset = None) as -> by (apply index_at_None; lia).
  reflexivity.
Qed.

End StoreFrames.

(** ** The further properties at concrete stores *)
Section ConcreteFrames.

Import LocalStore.

Lemma filename_injective_demo :
  "a/b" <> "a%2Fb" /\
  Url.PathEscape "a/b" ++ ".dat" <> Url.PathEscape "a%2Fb" ++ ".dat".
Proof.
  assert (H : "a/b" <> "a%2Fb") by discriminate.
  split; [exact H | exact (filename_injective ".dat" "a/b" "a%2Fb" H)].
Defined.

Lemma put_abc_sorted :
  sorted_by (comparator Demo.put_abc.1) (index Demo.put_abc.1).
Proof. vm_compute. repeat constructor; intros E; discriminate E. Qed.

Lemma put_k_sorted :
  sorted_by (comparator Demo.put_k.1.2) (index Demo.put_k.1.2).
Proof. vm_compute. repeat constructor. Qed.

Lemma index_lookup_correct_demo :
  let (i, ok) := GoSort.Find (length (index Demo.put_abc.1))
                   (find_cmp Demo.put_abc.1 "b.dat") in
  (ok = true <-> "b.dat" ∈ index Demo.put_abc.1) /\
  (ok = true -> index Demo.put_abc.1 !! i = Some "b.dat").
Proof.
  exact (index_lookup_correct Demo.put_abc.1 "b.dat" Compare_TotalOrder put_abc_sorted).
Defined.

Lemma Delete_index_frame_demo :
  let s' := snd (fst (Delete Demo.put_abc.1 "b" Demo.put_abc.2)) in
  index s' = ["a.dat"; "c.dat"] /\
  (forall x, x ∈ index s' -> x ∈ index Demo.put_abc.1) /\
  (forall x, x ∈ index Demo.put_abc.1 -> x <> "b.dat" -> x ∈ index s').
Proof.
  split; [vm_compute; reflexivity|].
  exact (Delete_index_frame Demo.put_abc.1 "b" Demo.put_abc.2 Compare_TotalOrder).
Defined.

Lemma index_NoDup_after_Put_Delete_demo :
  NoDup (index (fst (run [CPut "b" Demo.hello; CPut "a" Demo.world; CPut "b" Demo.world;
                          CDelete "a"; CPut "a" Demo.hello]
                         (Demo.store "data" None) Demo.world0))).
Proof.
  apply (index_NoDup_after_Put_Delete Demo.raw_Encode Demo.raw_Decode "data" None).
  - exact Compare_TotalOrder.
  - repeat constructor; discriminate.
Defined.

Lemma index_names_have_ext_demo :
  exists stem, "k.tar.gz" = stem ++ ".tar.gz".
Proof.
  apply (index_names_have_ext Demo.raw_Encode Demo.raw_Decode "data" Demo.tar_gz
           [CPut "k" Demo.hello] Demo.world0 "k.tar.gz").
  vm_compute. left.
Defined.

Lemma Put_Delete_restores_store_demo :
  let r1 := Put Demo.put_k.1.2 "j" Demo.world Demo.put_k.2 in
  let r2 := Delete r1.1.2 "j" r1.2 in
  index r1.1.2 = ["j.dat"; "k.dat"] /\ r2.1.1 = None /\ r2.1.2 = Demo.put_k.1.2.
Proof.
  intros r1 r2. split; [vm_compute; reflexivity|]. split; [vm_compute; reflexivity|].
  apply (Put_Delete_restores_store Demo.put_k.1.2 "j" Demo.world Demo.put_k.2
           r1.1.2 r1.2 r2.1.2 r2.2).
  - exact Compare_TotalOrder.
  - exact put_k_sorted.
  - vm_compute. intros H. inversion H as [|? ? ? H']. inversion H'.
  - vm_compute. reflexivity.
  - vm_compute. reflexivity.
Defined.

Lemma Delete_then_Get_not_exist_demo :
  let r1 := Delete Demo.put_k.1.2 "k" Demo.put_k.2 in
  r1.1.1 = None /\ Get r1.1.2 "k" r1.2 = (([], Some ErrNotExist), r1.2).
Proof.
  intros r1. split; [vm_compute; reflexivity|].
  assert (E : Delete Demo.put_k.1.2 "k" Demo.put_k.2 = ((None, r1.1.2), r1.2))
    by (vm_compute; reflexivity).
  assert (Hnd : NoDup (index Demo.put_k.1.2)).
  { vm_compute. repeat constructor. intros H. inversion H. }
  exact (Delete_then_Get_not_exist Demo.put_k.1.2 "k" Demo.put_k.2 r1.1.2 r1.2
           Compare_TotalOrder put_k_sorted Hnd E).
Defined.

(** The file of [k] has been removed behind the store's back. *)
Lemma Get_open_failure_demo :
  Get Demo.put_k.1.2 "k" Demo.world0 =
  (([], Some (ErrIO "no such file or directory")), Demo.world0).
Proof.
  assert (Hin : "k.dat" ∈ index Demo.put_k.1.2) by (vm_compute; left).
  assert (E : Files.OpenFileReader "data/k.dat" Demo.world0 =
              (Err (ErrIO "no such file or directory"), Demo.world0))
    by (vm_compute; reflexivity).
  exact (Get_open_failure Demo.put_k.1.2 "k" Demo.world0 _ _
           Compare_TotalOrder put_k_sorted Hin E).
Defined.

(** The second of three entries cannot be read. *)
Lemma List_aborts_at_first_failure_demo :
  let s := Demo.put_abc.1 in
  let w := mkWorld (fs Demo.put_abc.2)
             [None; None; None; None; None; None; Some (ErrIO "read error")] in
  exists w2,
    List s 0 (-1) w = (Return (mkList [] 0 0 0, Some (ErrIO "read error")), w2) /\
    faults w2 = [].
Proof.
  intros s w.
  exists (snd (read_entry s "b.dat" (snd (decode_entries s ["a.dat"] w)))).
  split; [|vm_compute; reflexivity].
  apply (List_aborts_at_first_failure s 0 (-1) w ["a.dat"] ["c.dat"] "b.dat"
           [Demo.hello] (snd (decode_entries s ["a.dat"] w))).
  - lia.
  - vm_compute. intros E; discriminate E.
  - vm_compute. intros E; discriminate E.
  - vm_compute. reflexivity.
  - vm_compute. reflexivity.
  - vm_compute. reflexivity.
Defined.

Lemma List_error_zero_page_demo :
  let s := Demo.put_abc.1 in
  let w := mkWorld (fs Demo.put_abc.2) [Some (ErrIO "permission denied")] in
  fst (List s 0 2 w) = Return (mkList [] 0 0 0, Some (ErrIO "permission denied")).
Proof.
  intros s w.
  assert (H : match fst (List s 0 2 w) with
              | Return (_, Some e) => e = ErrIO "permission denied"
              | _ => False
              end) by (vm_compute; reflexivity).
  destruct (List s 0 2 w) as [[[page [e|]]|msg] w'] eqn:E; cbn [fst] in *;
    try contradiction.
  subst e. now rewrite (List_error_zero_page s 0 2 w page _ w' E).
Defined.

Lemma List_negative_limit_returns_demo :
  exists r, fst (List Demo.put_abc.1 5 (-1) Demo.put_abc.2) = Return r.
Proof.
  apply (List_negative_limit_returns Demo.put_abc.1 5 (-1) Demo.put_abc.2).
  - lia.
  - lia.
  - vm_compute. intros E; discriminate E.
Defined.

Lemma List_negative_offset_panics_demo :
  List Demo.put_abc.1 (-1) (-1) Demo.put_abc.2 =
  (Panic "index out of range", Demo.put_abc.2).
Proof.
  apply (List_negative_offset_panics Demo.put_abc.1 (-1) (-1) Demo.put_abc.2).
  - lia.
  - vm_compute. reflexivity.
  - vm_compute. intros E; discriminate E.
Defined.

End ConcreteFrames.

(** ** What the calls do to the file system *)
Section FileSystemFrames.

Import LocalStore.

Context {T : Type} `{!Inhabited T} `{!SliceLimit T}.
Implicit Types (s : @t T) (w : World) (key name : string) (value : T).

Ltac io_open := unfold bind, ret in *; cbn beta iota in *.

(** Primitives that only read. *)
Lemma lookup_path_fs (path : string) w : fs (snd (Files.lookup_path path w)) = fs w.
Proof.
  unfold Files.lookup_path. io_open. pose proof (fault_fs w) as F.
  destruct (Files.fault w) as [[e|] w0]; cbn [fst snd] in *; [exact F|].
  destruct (fs w0 !! path); exact F.
Qed.

Lemma Stat_fs (f : Files.File) w : fs (snd (Files.Stat f w)) = fs w.
Proof.
  unfold Files.Stat. io_open. pose proof (fault_fs w) as F.
  destruct (Files.fault w) as [e w0]. exact F.
Qed.

Lemma reader_fs (f : Files.File) w : fs (snd (Files.reader f w)) = fs w.
Proof.
  unfold Files.reader. io_open. pose proof (fault_fs w) as F.
  destruct (Files.fault w) as [e w0]. exact F.
Qed.

Lemma MustIsEmptyDir_fs (path : string) w :
  fs (snd (Files.MustIsEmptyDir path w)) = fs w.
Proof.
  unfold Files.MustIsEmptyDir, Files.IsEmptyDir. io_open. pose proof (fault_fs w) as F.
  destruct (Files.fault w) as [[e|] w0]; cbn [fst snd] in *; [exact F|].
  destruct (fs w0 !! path) as [[data|]|]; exact F.
Qed.

(** Primitives that write touch their own path only. *)
Lemma OpenFileWriter_frame (path p : string) w :
  p <> path -> fs (snd (Files.OpenFileWriter path w)) !! p = fs w !! p.
Proof.
  intros Hne. unfold Files.OpenFileWriter. io_open. pose proof (fault_fs w) as F.
  destruct (Files.fault w) as [[e|] w0]; cbn [fst snd] in *; [now rewrite F|].
  destruct (fs w0 !! path) as [[data|]|]; cbn [fst snd fs];
    rewrite ?lookup_insert_ne by congruence; now rewrite F.
Qed.

Lemma OpenFileWriter_path (path : string) w (f : Files.File) w1 :
  Files.OpenFileWriter path w = (Ok f, w1) -> Files.f_path f = path.
Proof. intros E. apply OpenFileWriter_Ok in E as [-> _]. reflexivity. Qed.

Lemma Write_frame (f : Files.File) (data : bytes) (p : string) w :
  p <> Files.f_path f -> fs (snd (Files.Write f data w)) !! p = fs w !! p.
Proof.
  intros Hne. unfold Files.Write. io_open. pose proof (fault_fs w) as F.
  destruct (Files.fault w) as [[e|] w0]; cbn [fst snd fs] in *; [now rewrite F|].
  rewrite lookup_insert_ne by congruence. now rewrite F.
Qed.

Lemma Remove_frame (path p : string) w :
  p <> path -> fs (snd (Files.Remove path w)) !! p = fs w !! p.
Proof.
  intros Hne. unfold Files.Remove. io_open. pose proof (fault_fs w) as F.
  destruct (Files.fault w) as [[e|] w0]; cbn [fst snd] in *; [now rewrite F|].
  destruct (fs w0 !! path); cbn [fst snd fs];
    rewrite ?lookup_delete_ne by congruence; now rewrite F.
Qed.

Lemma Put_fs_other s key value w (p : string) :
  p <> Filepath.Join (dir s) (Url.PathEscape key ++ ext s) ->
  fs (snd (Put s key value w)) !! p = fs w !! p.
Proof.
  intros Hne. unfold Put. io_open.
  pose proof (OpenFileWriter_frame _ p w Hne) as F1.
  destruct (Files.OpenFileWriter _ w) as [[f|e] w1] eqn:EO; cbn [fst snd] in *;
    [|exact F1].
  apply OpenFileWriter_path in EO.
  unfold Encode. destruct (encoder s value) as [data cerr]. io_open.
  pose proof (Write_frame f data p w1 ltac:(now rewrite EO)) as F2.
  destruct (Files.Write f data w1) as [werr w2]. cbn [fst snd] in F2.
  pose proof (Close_fs f w2) as F3.
  destruct (Files.Close f w2) as [err1 w3]. cbn [fst snd] in F3.
  assert (F : fs w3 !! p = fs w !! p) by now rewrite F3, F2, F1.
  destruct (match err1 with
            | Some e1 => match werr with Some e => Some e | None => cerr end
            | None => match werr with Some e => Some e | None => cerr end
            end); destruct werr, cerr, err1; cbn [fst snd]; try exact F;
    destruct (GoSort.Find _ _) as [i ok]; destruct ok; exact F.
Qed.

Lemma Delete_fs_other s key w (p : string) :
  p <> Filepath.Join (dir s) (Url.PathEscape key ++ ext s) ->
  fs (snd (Delete s key w)) !! p = fs w !! p.
Proof.
  intros Hne. unfold Delete. destruct (GoSort.Find _ _) as [i ok].
  destruct ok; cbn [negb]; [|reflexivity]. io_open.
  pose proof (Remove_frame _ p w Hne) as F1.
  destruct (Files.Remove _ w) as [[e|] w1]; cbn [fst snd] in *; [exact F1|].
  pose proof (MustIsEmptyDir_fs (Filepath.Join (dir s) (Url.PathEscape key ++ ext s)) w1)
    as F2.
  destruct (Files.MustIsEmptyDir _ w1) as [[|] w2]; cbn [fst snd] in *.
  - pose proof (Remove_frame _ p w2 Hne) as F3.
    destruct (Files.Remove _ w2) as [e2 w3]. cbn [fst snd] in *.
    now rewrite F3, F2, F1.
  - now rewrite F2, F1.
Qed.

(** [Put] and [Delete], whatever their outcome, leave every path other
    than the path of their key's file as it was. *)
Theorem Put_Delete_touch_own_file s key value w (p : string) :
  p <> Filepath.Join (dir s) (Url.PathEscape key ++ ext s) ->
  fs (snd (Put s key value w)) !! p = fs w !! p /\
  fs (snd (Delete s key w)) !! p = fs w !! p.
Proof. intros Hne. split; [now apply Put_fs_other | now apply Delete_fs_other]. Qed.

Lemma Get_fs s key w : fs (snd (Get s key w)) = fs w.
Proof.
  unfold Get. destruct (GoSort.Find _ _) as [i ok].
  destruct ok; cbn [negb]; [|reflexivity].
  unfold Files.OpenFileReader. io_open.
  pose proof (lookup_path_fs (Filepath.Join (dir s) (Url.PathEscape key ++ ext s)) w)
    as F1.
  destruct (Files.lookup_path _ w) as [[f|e] w1]; cbn [fst snd] in *; [|exact F1].
  pose proof (reader_fs f w1) as F2.
  destruct (Files.reader f w1) as [rd w2]. cbn [fst snd] in F2.
  destruct (decoder s rd) as [v err].
  pose proof (Close_fs f w2) as F3.
  destruct (Files.Close f w2) as [c w3]. cbn [fst snd] in *.
  now rewrite F3, F2, F1.
Qed.

Lemma List_loop_fs s (n : nat) (i : Z) (values : list T) w :
  fs (snd (List_loop s n i values w)) = fs w.
Proof.
  revert i values w. induction n as [|n IH]; intros i values w; cbn [List_loop].
  - reflexivity.
  - destruct (index_at s i) as [name|]; [|reflexivity]. io_open.
    unfold Files.Open.
    pose proof (lookup_path_fs (Filepath.Join (dir s) name) w) as F1.
    destruct (Files.lookup_path _ w) as [[f|e] w1]; cbn [fst snd] in *; [|exact F1].
    pose proof (Stat_fs f w1) as F2.
    destruct (Files.Stat f w1) as [[fi|e] w2]; cbn [fst snd] in *.
    + destruct (Files.IsDir fi).
      * pose proof (Close_fs f w2) as F3.
        destruct (Files.Close f w2) as [c w3]. cbn [fst snd] in *.
        now rewrite IH, F3, F2, F1.
      * pose proof (reader_fs f w2) as F3.
        destruct (Files.reader f w2) as [rd w3]. cbn [fst snd] in *.
        destruct (decoder s rd) as [v [err|]];
          pose proof (Close_fs f w3) as F4;
          destruct (Files.Close f w3) as [c w4]; cbn [fst snd] in *;
          rewrite ?IH; now rewrite F4, F3, F2, F1.
    + pose proof (Close_fs f w2) as F3.
      destruct (Files.Close f w2) as [c w3]. cbn [fst snd] in *.
      now rewrite F3, F2, F1.
Qed.

(** [Load], [Get] and [List] only read: whatever they return, also
    when they fail or panic, the file tree is as it was. *)
Theorem readers_leave_files s key (offset limit : Z) w :
  fs (snd (Load s w)) = fs w /\
  fs (snd (Get s key w)) = fs w /\
  fs (snd (List s offset limit w)) = fs w.
Proof.
  split; [|split].
  - unfold Load, Files.MustReadDirnames, Files.ReadDirnames. io_open.
    pose proof (fault_fs w) as F.
    destruct (Files.fault w) as [[e|] w0]; cbn [fst snd] in *; [exact F|].
    destruct (fs w0 !! Filepath.Clean (dir s)) as [[data|]|];
      destruct (Files.entries (fs w0) (dir s)); exact F.
  - apply Get_fs.
  - unfold List. io_open. destruct (slice_max_cap <? _); [reflexivity|].
    pose proof (List_loop_fs s (Z.to_nat ((if limit <? 0
                                            then Z.of_nat (length (index s))
                                            else limit) - offset)) offset [] w) as F.
    destruct (List_loop s _ offset [] w) as [r w1]. exact F.
Qed.

(** *** Worlds without injected faults stay so *)

Lemma lookup_path_quiet (path : string) w :
  quiet w -> quiet (snd (Files.lookup_path path w)).
Proof.
  intros Hq. unfold Files.lookup_path. io_open.
  pose proof (fault_quiet w Hq) as [_ Q].
  destruct (Files.fault w) as [[e|] w0]; cbn [fst snd] in *; [exact Q|].
  destruct (fs w0 !! path); exact Q.
Qed.

Lemma OpenFileWriter_quiet (path : string) w :
  quiet w -> quiet (snd (Files.OpenFileWriter path w)).
Proof.
  intros Hq. unfold Files.OpenFileWriter. io_open.
  pose proof (fault_quiet w Hq) as [_ Q].
  destruct (Files.fault w) as [[e|] w0]; cbn [fst snd] in *; [exact Q|].
  destruct (fs w0 !! path) as [[data|]|]; exact Q.
Qed.

Lemma Write_quiet (f : Files.File) (data : bytes) w :
  quiet w -> quiet (snd (Files.Write f data w)).
Proof.
  intros Hq. unfold Files.Write. io_open.
  pose proof (fault_quiet w Hq) as [_ Q].
  destruct (Files.fault w) as [[e|] w0]; exact Q.
Qed.

Lemma Remove_quiet (path : string) w :
  quiet w -> quiet (snd (Files.Remove path w)).
Proof.
  intros Hq. unfold Files.Remove. io_open.
  pose proof (fault_quiet w Hq) as [_ Q].
  destruct (Files.fault w) as [[e|] w0]; cbn [fst snd] in *; [exact Q|].
  destruct (fs w0 !! path); exact Q.
Qed.

Lemma MustIsEmptyDir_quiet (path : string) w :
  quiet w -> quiet (snd (Files.MustIsEmptyDir path w)).
Proof.
  intros Hq. unfold Files.MustIsEmptyDir, Files.IsEmptyDir. io_open.
  pose proof (fault_quiet w Hq) as [_ Q].
  destruct (Files.fault w) as [[e|] w0]; cbn [fst snd] in *; [exact Q|].
  destruct (fs w0 !! path) as [[data|]|]; exact Q.
Qed.

Lemma Put_quiet s key value w : quiet w -> quiet (snd (Put s key value w)).
Proof.
  intros Hq. unfold Put. io_open.
  pose proof (OpenFileWriter_quiet
                (Filepath.Join (dir s) (Url.PathEscape key ++ ext s)) w Hq) as Q1.
  destruct (Files.OpenFileWriter _ w) as [[f|e] w1]; cbn [fst snd] in *; [|exact Q1].
  unfold Encode. destruct (encoder s value) as [data cerr]. io_open.
  pose proof (Write_quiet f data w1 Q1) as Q2.
  destruct (Files.Write f data w1) as [werr w2]. cbn [fst snd] in Q2.
  pose proof (fault_quiet w2 Q2) as [_ Q3]. unfold Files.Close.
  destruct (Files.fault w2) as [err1 w3]. cbn [fst snd] in Q3.
  destruct werr, cerr, err1; cbn [fst snd]; try exact Q3;
    destruct (GoSort.Find _ _) as [i ok]; destruct ok; exact Q3.
Qed.

Lemma Delete_quiet s key w : quiet w -> quiet (snd (Delete s key w)).
Proof.
  intros Hq. unfold Delete. destruct (GoSort.Find _ _) as [i ok].
  destruct ok; cbn [negb]; [|exact Hq]. io_open.
  pose proof (Remove_quiet (Filepath.Join (dir s) (Url.PathEscape key ++ ext s)) w Hq)
    as Q1.
  destruct (Files.Remove _ w) as [[e|] w1]; cbn [fst snd] in *; [exact Q1|].
  pose proof (MustIsEmptyDir_quiet
                (Filepath.Join (dir s) (Url.PathEscape key ++ ext s)) w1 Q1) as Q2.
  destruct (Files.MustIsEmptyDir _ w1) as [[|] w2]; cbn [fst snd] in *; [|exact Q2].
  pose proof (Remove_quiet (Filepath.Join (dir s) (Url.PathEscape key ++ ext s)) w2 Q2)
    as Q3.
  destruct (Files.Remove _ w2) as [e2 w3]. exact Q3.
Qed.

(** *** What [Get] returns is a function of the index and of one file *)

Lemma Get_quiet s key w :
  let name := Url.PathEscape key ++ ext s in
  let path := Filepath.Join (dir s) name in
  TotalOrder (comparator s) ->
  sorted_by (comparator s) (index s) ->
  quiet w ->
  fst (Get s key w) =
  if decide (name ∈ index s) then
    match fs w !! path with
    | Some (Regular data) => decoder s (Files.mkReader data None)
    | Some Directory =>
        decoder s (Files.mkReader [] (Some (ErrIO "is a directory")))
    | None => (inhabitant, Some (ErrIO "no such file or directory"))
    end
  else (inhabitant, Some ErrNotExist).
Proof.
  intros name path Htot Hs Hq. unfold Get. fold name. fold path.
  pose proof (Find_sorted (comparator s) Htot (index s) Hs name) as HF.
  unfold find_cmp.
  destruct (GoSort.Find _ _) as [i ok]. destruct HF as (_ & _ & _ & Hok & _).
  destruct (decide (name ∈ index s)) as [Hin|Hnot].
  - apply Hok in Hin. subst ok. cbn [negb].
    unfold Files.OpenFileReader, Files.lookup_path, Files.reader, Files.Close.
    io_open.
    pose proof (fault_quiet w Hq) as [E1 Hq1]. pose proof (fault_fs w) as F1.
    destruct (Files.fault w) as [e1 w1]. cbn [fst snd] in *. subst e1.
    rewrite F1. destruct (fs w !! path) as [[data|]|]; [| |reflexivity].
    + pose proof (fault_quiet w1 Hq1) as [E2 Hq2].
      destruct (Files.fault w1) as [e2 w2]. cbn [fst snd] in *. subst e2.
      cbn [Files.f_node].
      destruct (decoder s (Files.mkReader data None)) as [v err].
      now destruct (Files.fault w2).
    + pose proof (fault_quiet w1 Hq1) as [E2 Hq2].
      destruct (Files.fault w1) as [e2 w2]. cbn [fst snd] in *. subst e2.
      cbn [Files.f_node].
      destruct (decoder s (Files.mkReader [] (Some (ErrIO "is a directory"))))
        as [v err].
      now destruct (Files.fault w2).
  - destruct ok; [exfalso; now apply Hnot, Hok|]. reflexivity.
Qed.

(** [Put] of one key, whatever its outcome, does not change what [Get]
    returns for a key with another file name and another path. *)
Theorem Put_keeps_other_keys s k1 value k2 w :
  TotalOrder (comparator s) ->
  sorted_by (comparator s) (index s) ->
  quiet w ->
  Url.PathEscape k2 ++ ext s <> Url.PathEscape k1 ++ ext s ->
  Filepath.Join (dir s) (Url.PathEscape k2 ++ ext s)
    <> Filepath.Join (dir s) (Url.PathEscape k1 ++ ext s) ->
  fst (Get (snd (fst (Put s k1 value w))) k2 (snd (Put s k1 value w)))
  = fst (Get s k2 w).
Proof.
  intros Htot Hs Hq Hname Hpath.
  pose proof (Put_config s k1 value w) as (Hd & He & Hc & _ & Hde).
  pose proof (Put_sorted s k1 value w Htot Hs) as Hs'.
  pose proof (Put_quiet s k1 value w Hq) as Hq'.
  pose proof (Put_fs_other s k1 value w _ Hpath) as Hfs.
  rewrite Get_quiet by (rewrite ?Hc; assumption).
  rewrite (Get_quiet s k2 w Htot Hs Hq).
  rewrite Hd, He, Hde, Hfs.
  destruct (Put_index_cases s k1 value w) as [E|[i E]]; rewrite E.
  - reflexivity.
  - apply decide_ext.
    rewrite !elem_of_app, list_elem_of_singleton.
    rewrite <- (take_drop i (index s)) at 3. rewrite elem_of_app. tauto.
Qed.

(** [Delete] of one key, whatever its outcome, does not change what
    [Get] returns for a key with another file name and another path. *)
Theorem Delete_keeps_other_keys s k1 k2 w :
  TotalOrder (comparator s) ->
  sorted_by (comparator s) (index s) ->
  quiet w ->
  Url.PathEscape k2 ++ ext s <> Url.PathEscape k1 ++ ext s ->
  Filepath.Join (dir s) (Url.PathEscape k2 ++ ext s)
    <> Filepath.Join (dir s) (Url.PathEscape k1 ++ ext s) ->
  fst (Get (snd (fst (Delete s k1 w))) k2 (snd (Delete s k1 w)))
  = fst (Get s k2 w).
Proof.
  intros Htot Hs Hq Hname Hpath.
  pose proof (Delete_config s k1 w) as (Hd & He & Hc & _ & Hde).
  pose proof (Delete_sorted s k1 w Htot Hs) as Hs'.
  pose proof (Delete_quiet s k1 w Hq) as Hq'.
  pose proof (Delete_fs_other s k1 w _ Hpath) as Hfs.
  rewrite Get_quiet by (rewrite ?Hc; assumption).
  rewrite (Get_quiet s k2 w Htot Hs Hq).
  rewrite Hd, He, Hde, Hfs.
  destruct (Delete_index_cases s k1 w) as [E|(i & y & Hy & Hcmp & E)]; rewrite E.
  - reflexivity.
  - apply (cmp_eq _ Htot) in Hcmp. subst y. apply decide_ext.
    rewrite <- (take_drop_middle _ _ _ Hy) at 3.
    rewrite !elem_of_app, elem_of_cons. split; [tauto|].
    intros [H|[H|H]]; auto. contradiction.
Qed.

(** *** [Load] again *)

Lemma MustReadDirnames_quiet (d : string) w w' :
  quiet w -> quiet w' -> fs w = fs w' ->
  fst (Files.MustReadDirnames d w) = fst (Files.MustReadDirnames d w').
Proof.
  intros Hq Hq' Hfs. unfold Files.MustReadDirnames, Files.ReadDirnames. io_open.
  pose proof (fault_quiet w Hq) as [E1 _]. pose proof (fault_fs w) as F1.
  pose proof (fault_quiet w' Hq') as [E2 _]. pose proof (fault_fs w') as F2.
  destruct (Files.fault w) as [e1 w1], (Files.fault w') as [e2 w2].
  cbn [fst snd] in *. subst e1 e2. rewrite F1, F2, Hfs.
  destruct (fs w' !! Filepath.Clean d) as [[data|]|];
    destruct (Files.entries (fs w') d); reflexivity.
Qed.

(** Without injected faults a second [Load] right after the first
    leaves the store as the first left it. *)
Theorem Load_twice s w :
  quiet w ->
  snd (fst (Load (snd (fst (Load s w))) (snd (Load s w)))) = snd (fst (Load s w)).
Proof.
  intros Hq.
  assert (Hq1 : quiet (snd (Load s w)) /\ fs (snd (Load s w)) = fs w).
  { unfold Load, Files.MustReadDirnames, Files.ReadDirnames. io_open.
    pose proof (fault_quiet w Hq) as [_ Q]. pose proof (fault_fs w) as F.
    destruct (Files.fault w) as [[e|] w0]; cbn [fst snd] in *; [now split|].
    destruct (fs w0 !! Filepath.Clean (dir s)) as [[data|]|];
      destruct (Files.entries (fs w0) (dir s)); now split. }
  destruct Hq1 as [Hq1 Hfs].
  pose proof (MustReadDirnames_quiet (dir s) (snd (Load s w)) w Hq1 Hq Hfs) as EM.
  revert EM. generalize (snd (Load s w)). intros w1 EM.
  unfold Load at 1. io_open.
  assert (Hcfg : forall w0, snd (fst (Load s w0)) =
            set_index s (GoSort.Slice (fun a b => comparator s a b <? 0)
              (List.filter (fun name => String.eqb (Filepath.Ext name) (ext s))
                 (fst (Files.MustReadDirnames (dir s) w0))))).
  { intros w0. unfold Load. io_open.
    now destruct (Files.MustReadDirnames (dir s) w0). }
  rewrite (Hcfg w). cbn [dir ext comparator set_index].
  destruct (Files.MustReadDirnames (dir s) w1) as [names w2]. cbn [fst snd] in *.
  now rewrite EM.
Qed.

(** With a comparator that is a valid total order the index after
    [Load] is the one sorted arrangement of the kept names: it does not
    depend on the order of the directory listing nor on the sorting
    algorithm. *)
Theorem Load_index_unique_order s w (l : list string) :
  TotalOrder (comparator s) ->
  sorted_by (comparator s) l ->
  l ≡ₚ List.filter (fun name => String.eqb (Filepath.Ext name) (ext s))
                   (fst (Files.MustReadDirnames (dir s) w)) ->
  index (snd (fst (Load s w))) = l.
Proof.
  intros Htot Hl HP. apply (sorted_perm_unique (comparator s) Htot).
  - now apply Load_sorted.
  - exact Hl.
  - rewrite Load_index_filter. now symmetry.
Qed.

End FileSystemFrames.

(** ** The file-system properties at concrete stores *)
Section ConcreteFileSystem.

Import LocalStore.

Lemma Put_Delete_touch_own_file_demo :
  fs (snd (Put Demo.put_k.1.2 "j" Demo.world Demo.put_k.2)) !! "data/k.dat"
    = Some (Regular Demo.hello) /\
  fs (snd (Delete Demo.put_k.1.2 "j" Demo.put_k.2)) !! "data/k.dat"
    = Some (Regular Demo.hello).
Proof.
  assert (Hne : "data/k.dat" <>
                Filepath.Join (dir Demo.put_k.1.2) (Url.PathEscape "j" ++ ext Demo.put_k.1.2)).
  { intros E. vm_compute in E. discriminate E. }
  destruct (Put_Delete_touch_own_file Demo.put_k.1.2 "j" Demo.world Demo.put_k.2
              "data/k.dat" Hne) as [H1 H2].
  assert (E : fs Demo.put_k.2 !! "data/k.dat" = Some (Regular Demo.hello))
    by (vm_compute; reflexivity).
  split; [now rewrite H1 | now rewrite H2].
Defined.

Lemma Put_keeps_other_keys_demo :
  fst (Get (snd (fst (Put Demo.put_k.1.2 "j" Demo.world Demo.put_k.2))) "k"
           (snd (Put Demo.put_k.1.2 "j" Demo.world Demo.put_k.2)))
  = (Demo.hello, None).
Proof.
  rewrite (Put_keeps_other_keys Demo.put_k.1.2 "j" Demo.world "k" Demo.put_k.2).
  - vm_compute. reflexivity.
  - exact Compare_TotalOrder.
  - exact put_k_sorted.
  - vm_compute. constructor.
  - intros E. vm_compute in E. discriminate E.
  - intros E. vm_compute in E. discriminate E.
Defined.

Lemma Delete_keeps_other_keys_demo :
  fst (Get (snd (fst (Delete Demo.put_abc.1 "a" Demo.put_abc.2))) "b"
           (snd (Delete Demo.put_abc.1 "a" Demo.put_abc.2)))
  = (Demo.world, None).
Proof.
  rewrite (Delete_keeps_other_keys Demo.put_abc.1 "a" "b" Demo.put_abc.2).
  - vm_compute. reflexivity.
  - exact Compare_TotalOrder.
  - exact put_abc_sorted.
  - vm_compute. constructor.
  - intros E. vm_compute in E. discriminate E.
  - intros E. vm_compute in E. discriminate E.
Defined.

Lemma Load_twice_demo :
  let r1 := Load Demo.put_abc.1 Demo.put_abc.2 in
  index r1.1.2 = ["a.dat"; "b.dat"; "c.dat"] /\
  snd (fst (Load r1.1.2 r1.2)) = r1.1.2.
Proof.
  intros r1. split; [vm_compute; reflexivity|].
  apply (Load_twice Demo.put_abc.1 Demo.put_abc.2).
  vm_compute. constructor.
Defined.

Lemma Load_index_unique_order_demo :
  index (snd (fst (Load Demo.put_abc.1 Demo.put_abc.2))) = ["a.dat"; "b.dat"; "c.dat"].
Proof.
  apply (Load_index_unique_order Demo.put_abc.1 Demo.put_abc.2).
  - exact Compare_TotalOrder.
  - exact put_abc_sorted.
  - vm_compute. symmetry.
    exact (Permutation_cons_append ["a.dat"; "b.dat"] "c.dat").
Defined.

End ConcreteFileSystem.
